(** * zynseq: step sequencer core (pattern.cpp, zynseq.cpp)

    A shallow embedding of the pattern container ([Pattern], pattern.cpp) and
    of the realtime callbacks of zynseq.cpp ([onJackTimebase], the schedule
    drain of [onJackProcess], [sendMidiMsg]), with the properties of the
    sequencer specification stated and settled against them.

    Conventions of the embedding.
    - [uint8_t], [uint32_t] and [jack_nframes_t] values are integers of [Z];
      every place where the C++ arithmetic wraps is written with [u8] or [u32].
    - [int] is [Z] with two's complement wrap-around ([s32]).
    - a [float] of the pattern is a binary32 number of the Standard Library's
      [SpecFloat] ([spec_float] at precision 24), with its zeros, infinities
      and NaN; sums, products and quotients round to nearest, ties to even,
      and an integer is rounded when it is converted to [float].
    - the [double] values of the driver, and the beats of a bar, which it
      only compares with integers, are rationals of [Q]; each [double]
      operation is rounded by a parameter [rnd].
    - a [std::vector<StepEvent>] is a [list StepEvent]; an iterator is an index.
    - the schedule, a [std::map<uint32_t, MIDI_MESSAGE*>], is an association
      list kept in strictly increasing key order, a null pointer being [None]. *)

From Stdlib Require Import ZArith QArith Qround Qabs Lia Lqa Bool Sorted.
From Stdlib Require Import SpecFloat.
From stdpp Require Import base list.

Local Open Scope Z_scope.

(** ** Machine arithmetic *)

Definition u8 (z : Z) : Z := z mod 256.
Definition u32 (z : Z) : Z := z mod 2 ^ 32.
Definition s32 (z : Z) : Z := (z + 2 ^ 31) mod 2 ^ 32 - 2 ^ 31.

Definition INT_MIN : Z := - 2 ^ 31.
Definition INT_MAX : Z := 2 ^ 31 - 1.

(** Strict comparison of rationals, as a boolean. *)
Definition Qlt_bool (a b : Q) : bool := negb (Qle_bool b a).

(** Conversion of a non-negative [double] to [uint32_t]: truncation. *)
Definition float_to_u32 (q : Q) : Z := u32 (Qfloor q).

(** ** [float] arithmetic *)

(** Conversion of an integer to [float]. *)
Definition f32_of_Z (z : Z) : spec_float := binary_normalize 24 128 z 0 false.

Definition f32_add : spec_float -> spec_float -> spec_float := SFadd 24 128.
Definition f32_mul : spec_float -> spec_float -> spec_float := SFmul 24 128.
Definition f32_div : spec_float -> spec_float -> spec_float := SFdiv 24 128.

(** The [double] that a [float] is promoted to, and the [float] nearest to a
    [double]. *)
Definition f64_of_f32 (x : spec_float) : spec_float :=
  match x with
  | S754_finite s m e => binary_normalize 53 1024 (cond_Zopp s (Zpos m)) e false
  | _ => x
  end.
Definition f32_of_f64 (x : spec_float) : spec_float :=
  match x with
  | S754_finite s m e => binary_normalize 24 128 (cond_Zopp s (Zpos m)) e false
  | _ => x
  end.

(** The [double] literal [0.1]: the [double] nearest to one tenth. *)
Definition double_tenth : spec_float :=
  SFdiv 53 1024 (binary_normalize 53 1024 1 0 false)
    (binary_normalize 53 1024 10 0 false).

(** The rational that a zero or a finite number stands for. *)
Definition float_value (x : spec_float) : option Q :=
  match x with
  | S754_zero _ => Some 0%Q
  | S754_finite s m e =>
      Some (Qred (inject_Z (cond_Zopp s (Zpos m)) * 2 ^ e)%Q)
  | _ => None
  end.

(** Conversion of a [float] to [uint32_t]: truncation towards zero.  C++
    leaves the conversion undefined outside the range of [uint32_t]; it wraps
    here, and gives 0 for infinities and NaN. *)
Definition f32_to_u32 (x : spec_float) : Z :=
  match float_value x with
  | Some q => u32 (Z.quot (Qnum q) (Zpos (Qden q)))
  | None => 0
  end.

(** [int(std::ceil(x))] for a [float]: [std::ceil] is exact, and the
    conversion to [int] is undefined ([None]) for infinities, NaN and the
    values that an [int] does not hold. *)
Definition f32_ceil_int (x : spec_float) : option Z :=
  match float_value x with
  | Some q =>
      let c := Qceiling q in
      if (INT_MIN <=? c) && (c <=? INT_MAX) then Some c else None
  | None => None
  end.

(** ** Control flow of a loop body *)

Inductive flow : Type :=
| Continue  (* fall through to the next iteration *)
| Return.   (* [return] from the enclosing function *)

(** * Patterns (pattern.cpp) *)

Module Pattern.

(** Modelled from the spec: the MIDI status codes of constants.h, which is not
    among the sources (note-on 0x90, control change 0xB0, program change 0xC0). *)
Definition MIDI_NOTE_ON : Z := 144.
Definition MIDI_CONTROL : Z := 176.
Definition MIDI_PROGRAM : Z := 192.

(** Modelled from the spec: the class [StepEvent] is declared in pattern.h,
    which is not among the sources; its members are the tuple of the data
    model, behind the getters and setters that pattern.cpp calls. *)
Record StepEvent : Type := mkStepEvent {
  m_nPosition : Z;      (* uint32_t: start position in steps *)
  m_fDuration : spec_float;   (* float: duration in steps *)
  m_nCommand : Z;       (* uint8_t: MIDI command without channel *)
  m_nValue1start : Z;   (* uint8_t *)
  m_nValue2start : Z;   (* uint8_t *)
  m_nValue1end : Z;     (* uint8_t *)
  m_nValue2end : Z      (* uint8_t *)
}.

Definition getPosition := m_nPosition.
Definition getDuration := m_fDuration.
Definition getCommand := m_nCommand.
Definition getValue1start := m_nValue1start.
Definition getValue2start := m_nValue2start.
Definition getValue1end := m_nValue1end.

(** Modelled from the spec: the constructor of [StepEvent] is declared in
    pattern.h, which is not among the sources; the end values of a discrete
    event equal its start values. *)
Definition newStepEvent (position command value1 value2 : Z)
  (duration : spec_float)
  : StepEvent :=
  mkStepEvent position duration command value1 value2 value1 value2.

Definition setPosition (ev : StepEvent) (position : Z) : StepEvent :=
  mkStepEvent position (m_fDuration ev) (m_nCommand ev) (m_nValue1start ev)
    (m_nValue2start ev) (m_nValue1end ev) (m_nValue2end ev).
Definition setDuration (ev : StepEvent) (duration : spec_float) : StepEvent :=
  mkStepEvent (m_nPosition ev) duration (m_nCommand ev) (m_nValue1start ev)
    (m_nValue2start ev) (m_nValue1end ev) (m_nValue2end ev).
Definition setValue1start (ev : StepEvent) (value : Z) : StepEvent :=
  mkStepEvent (m_nPosition ev) (m_fDuration ev) (m_nCommand ev) (u8 value)
    (m_nValue2start ev) (m_nValue1end ev) (m_nValue2end ev).
Definition setValue2start (ev : StepEvent) (value : Z) : StepEvent :=
  mkStepEvent (m_nPosition ev) (m_fDuration ev) (m_nCommand ev)
    (m_nValue1start ev) (u8 value) (m_nValue1end ev) (m_nValue2end ev).
Definition setValue1end (ev : StepEvent) (value : Z) : StepEvent :=
  mkStepEvent (m_nPosition ev) (m_fDuration ev) (m_nCommand ev)
    (m_nValue1start ev) (m_nValue2start ev) (u8 value) (m_nValue2end ev).
Definition setValue2end (ev : StepEvent) (value : Z) : StepEvent :=
  mkStepEvent (m_nPosition ev) (m_fDuration ev) (m_nCommand ev)
    (m_nValue1start ev) (m_nValue2start ev) (m_nValue1end ev) (u8 value).

(** The members of a [Pattern]. *)
Record Pattern : Type := mkPattern {
  m_nBeats : Z;                 (* uint32_t *)
  m_nStepsPerBeat : Z;          (* uint32_t *)
  m_nScale : Z;
  m_nTonic : Z;
  m_nRefNote : Z;
  m_vEvents : list StepEvent
}.

Definition with_events (p : Pattern) (v : list StepEvent) : Pattern :=
  mkPattern (m_nBeats p) (m_nStepsPerBeat p) (m_nScale p) (m_nTonic p)
    (m_nRefNote p) v.
Definition with_beats (p : Pattern) (beats : Z) : Pattern :=
  mkPattern beats (m_nStepsPerBeat p) (m_nScale p) (m_nTonic p)
    (m_nRefNote p) (m_vEvents p).
Definition with_stepsPerBeat (p : Pattern) (n : Z) : Pattern :=
  mkPattern (m_nBeats p) n (m_nScale p) (m_nTonic p) (m_nRefNote p)
    (m_vEvents p).

(** [m_nBeats * m_nStepsPerBeat], a [uint32_t] product. *)
Definition getSteps (p : Pattern) : Z := u32 (m_nBeats p * m_nStepsPerBeat p).

(** *** Loops over the event vector *)

(** [for(StepEvent ev : m_vEvents) body]: the loop variable is a copy of the
    element.  [body] gives the copy as the iteration leaves it and how the
    iteration ends; the copy is destroyed at the end of the iteration and the
    element of the vector stays as it was. *)
Fixpoint for_each_copy (body : StepEvent -> StepEvent * flow)
  (v : list StepEvent) : list StepEvent :=
  match v with
  | [] => []
  | elem :: rest =>
      let '(_, fl) := body elem in
      match fl with
      | Return => elem :: rest
      | Continue => elem :: for_each_copy body rest
      end
  end.

(** *** addEvent *)

(** [position + duration] for a [uint32_t] position and a [float] duration:
    the position is converted to [float] and the sum is a [float]. *)
Definition float_end (position : Z) (duration : spec_float) : spec_float :=
  f32_add (f32_of_Z position) duration.

(** The test of the first loop of [addEvent] on the element [ev].  The two
    positions are compared as integers; a position compared with an end is
    converted to [float]. *)
Definition bOverlap (position : Z) (duration : spec_float) (ev : StepEvent)
  : bool :=
  let nEventStart := position in
  let fEventEnd := float_end nEventStart duration in
  let nCheckStart := getPosition ev in
  let fCheckEnd := float_end nCheckStart (getDuration ev) in
  ((nEventStart <=? nCheckStart) && SFltb (f32_of_Z nCheckStart) fEventEnd)
  || (SFltb (f32_of_Z nEventStart) fCheckEnd && SFleb fCheckEnd fEventEnd).

Definition evicted (position command value1 : Z) (duration : spec_float)
  (ev : StepEvent) : bool :=
  bOverlap position duration ev
  && (getCommand ev =? command) && (getValue1start ev =? value1).

(** The first loop of [addEvent].  [it] is the iterator, an index that
    [erase(it) - 1] may take to -1 before [++it] brings it back; [fuel] bounds
    the number of iterations. *)
Fixpoint erase_loop (fuel : nat) (it : Z) (v : list StepEvent)
  (position command value1 : Z) (duration : spec_float) : list StepEvent :=
  match fuel with
  | O => v
  | S fuel' =>
      if it =? Z.of_nat (length v) then v
      else
        match v !! Z.to_nat it with
        | None => v
        | Some ev =>
            if evicted position command value1 duration ev then
              let v' := delete (Z.to_nat it) v in
              let it' := it - 1 in
              if it' =? Z.of_nat (length v') then v'
              else erase_loop fuel' (it' + 1) v' position command value1 duration
            else erase_loop fuel' (it + 1) v position command value1 duration
        end
  end.

(** The second loop of [addEvent]: the index of the first element whose
    position is greater than [position], or the size of the vector. *)
Fixpoint insert_index (v : list StepEvent) (position : Z) : nat :=
  match v with
  | [] => O
  | ev :: rest =>
      if getPosition ev >? position then O
      else S (insert_index rest position)
  end.

(** [m_vEvents.insert(it, x)] at index [i]. *)
Definition vector_insert (i : nat) (x : StepEvent) (v : list StepEvent)
  : list StepEvent :=
  take i v ++ x :: drop i v.

(** [addEvent(position, command, value1, value2, duration)]: the pattern
    after the call and the index of the inserted event (the returned pointer).
    The local [nTime] of the source is computed and never read. *)
Definition addEvent (p : Pattern) (position command value1 value2 : Z)
  (duration : spec_float) : Pattern * nat :=
  let v := erase_loop (length (m_vEvents p)) 0 (m_vEvents p)
             position command value1 duration in
  let it := insert_index v position in
  (with_events p
     (vector_insert it (newStepEvent position command value1 value2 duration) v),
   it).

(** Assignment through the pointer returned by [addEvent]. *)
Definition update_at (i : nat) (f : StepEvent -> StepEvent) (p : Pattern)
  : Pattern :=
  with_events p (alter f i (m_vEvents p)).

(** [deleteEvent]: erases the first event that matches. *)
Fixpoint delete_first (v : list StepEvent) (position command value1 : Z)
  : list StepEvent :=
  match v with
  | [] => []
  | ev :: rest =>
      if (getPosition ev =? position) && (getCommand ev =? command)
         && (getValue1start ev =? value1)
      then rest
      else ev :: delete_first rest position command value1
  end.

Definition deleteEvent (p : Pattern) (position command value1 : Z) : Pattern :=
  with_events p (delete_first (m_vEvents p) position command value1).

(** *** Notes *)

Definition addNote (p : Pattern) (step note velocity : Z)
  (duration : spec_float) : bool * Pattern :=
  if (getSteps p <=? step) || (note >? 127) || (velocity >? 127)
  then (false, p)
  else (true, fst (addEvent p step MIDI_NOTE_ON note velocity duration)).

Definition removeNote (p : Pattern) (step note : Z) : Pattern :=
  deleteEvent p step MIDI_NOTE_ON note.

Definition setNoteVelocity (p : Pattern) (step note velocity : Z) : Pattern :=
  if velocity >? 127 then p
  else
    with_events p
      (for_each_copy
         (fun ev =>
            if (getPosition ev =? step) && (getCommand ev =? MIDI_NOTE_ON)
               && (getValue1start ev =? note)
            then (setValue2start ev velocity, Return)
            else (ev, Continue))
         (m_vEvents p)).

(** *** Program changes *)

Fixpoint find_program (v : list StepEvent) (step : Z) : Z :=
  match v with
  | [] => 255
  | ev :: rest =>
      if negb (getPosition ev =? step) || negb (getCommand ev =? MIDI_PROGRAM)
      then find_program rest step
      else getValue1start ev
  end.

Definition getProgramChange (p : Pattern) (step : Z) : Z :=
  if getSteps p <=? step then 255 else find_program (m_vEvents p) step.

Definition removeProgramChange (p : Pattern) (step : Z) : bool * Pattern :=
  if getSteps p <=? step then (false, p)
  else
    let program := getProgramChange p step in
    if program =? 255 then (false, p)
    else (true, deleteEvent p step MIDI_PROGRAM program).

Section DefaultArguments.

(** The default arguments [value2] and [duration] of [addEvent] are given in
    pattern.h, which is not among the sources: they are parameters here. *)
Variable default_value2 : Z.
Variable default_duration : spec_float.

Definition addProgramChange (p : Pattern) (step program : Z) : bool * Pattern :=
  if (getSteps p <=? step) || (program >? 127) then (false, p)
  else
    let p1 := snd (removeProgramChange p step) in
    (true,
     fst (addEvent p1 step MIDI_PROGRAM program default_value2 default_duration)).

End DefaultArguments.

(** *** Controls *)

(** [addControl]: [true] when the event was added ([void] in the source).
    The [StepEvent] the source allocates as [pControl] is never stored.  The
    guard compares the duration with the steps converted to [float]. *)
Definition addControl (p : Pattern) (step control valueStart valueEnd : Z)
  (duration : spec_float) : bool * Pattern :=
  let fDuration := duration in
  if (step >? getSteps p) || (control >? 127) || (valueStart >? 127)
     || (valueEnd >? 127) || SFltb (f32_of_Z (getSteps p)) fDuration
  then (false, p)
  else
    let '(p1, pEvent) :=
      addEvent p step MIDI_CONTROL control valueStart fDuration in
    (true, update_at pEvent (fun ev => setValue2end ev valueEnd) p1).

(** *** Grid *)

(** [setStepsPerBeat].  The [else] branch of the source declares a new local
    [fScale], which hides the outer one: the outer [fScale] stays 1.0.  The
    loop that moves the events takes each event by value. *)
Definition setStepsPerBeat (p : Pattern) (value : Z) : bool * Pattern :=
  let fScale : spec_float := f32_of_Z 1 in
  let p1 :=
    if (m_nStepsPerBeat p =? 0) || (m_nStepsPerBeat p >? 24)
    then with_stepsPerBeat p 4
    else
      let fScale_else : spec_float :=
        f32_div (f32_of_Z value) (f32_of_Z (m_nStepsPerBeat p)) in
      p in
  if (value =? 1) || (value =? 2) || (value =? 3) || (value =? 4)
     || (value =? 6) || (value =? 8) || (value =? 12) || (value =? 24)
  then
    let p2 := with_stepsPerBeat p1 value in
    (true,
     with_events p2
       (for_each_copy
          (fun ev =>
             let ev1 :=
               setPosition ev
                 (f32_to_u32 (f32_mul (f32_of_Z (getPosition ev)) fScale)) in
             (setDuration ev1 (f32_mul (getDuration ev1) fScale), Continue))
          (m_vEvents p2)))
  else (false, p1).

(** The loop of [setBeatsInPattern]: the index of the first event whose
    position is at or past [steps], or the size of the vector. *)
Fixpoint shrink_index (v : list StepEvent) (steps : Z) : nat :=
  match v with
  | [] => O
  | ev :: rest =>
      if steps <=? getPosition ev then O
      else S (shrink_index rest steps)
  end.

(** [setBeatsInPattern]; [resize(nIndex)] with [nIndex <= size()] truncates. *)
Definition setBeatsInPattern (p : Pattern) (beats : Z) : Pattern :=
  let p1 := if beats >? 0 then with_beats p beats else p in
  let nIndex := shrink_index (m_vEvents p1) (getSteps p1) in
  with_events p1 (take nIndex (m_vEvents p1)).

(** *** Bulk edits *)

(** The first loop of [transpose]: [true] when it returns from the function. *)
Fixpoint transpose_check (v : list StepEvent) (value : Z) : bool :=
  match v with
  | [] => false
  | ev :: rest =>
      if negb (getCommand ev =? MIDI_NOTE_ON) then transpose_check rest value
      else
        let note := s32 (getValue1start ev + value) in
        if (note >? 127) || (note <? 0) then true
        else transpose_check rest value
  end.

Definition transposed (ev : StepEvent) (note : Z) : StepEvent :=
  setValue1end (setValue1start ev note) note.

(** The second loop of [transpose], on the iterator [it].  After
    [m_vEvents.erase(it)] the iterator keeps its index and [++it] moves on;
    an iterator past [end()] is undefined behaviour, [None]. *)
Fixpoint transpose_loop (fuel : nat) (it : nat) (v : list StepEvent)
  (value : Z) : option (list StepEvent) :=
  match fuel with
  | O => None
  | S fuel' =>
      if Nat.eqb it (length v) then Some v
      else
        match v !! it with
        | None => None
        | Some ev =>
            if negb (getCommand ev =? MIDI_NOTE_ON)
            then transpose_loop fuel' (S it) v value
            else
              let note := s32 (getValue1start ev + value) in
              if (note >? 127) || (note <? 0)
              then transpose_loop fuel' (S it) (delete it v) value
              else transpose_loop fuel' (S it) (alter (fun e => transposed e note) it v) value
        end
  end.

Definition transpose (p : Pattern) (value : Z) : option Pattern :=
  if transpose_check (m_vEvents p) value then Some p
  else
    match transpose_loop (S (length (m_vEvents p))) 0 (m_vEvents p) value with
    | Some v => Some (with_events p v)
    | None => None
    end.

Definition changeVelocityAll (p : Pattern) (value : Z) : Pattern :=
  with_events p
    (for_each_copy
       (fun ev =>
          if negb (getCommand ev =? MIDI_NOTE_ON) then (ev, Continue)
          else
            let vel := s32 (getValue2start ev + value) in
            let vel := if vel >? 127 then 127 else vel in
            let vel := if vel <? 1 then 1 else vel in
            (setValue2start ev vel, Continue))
       (m_vEvents p)).

(** [changeDurationAll]: [duration < 0.1] compares the [float] with the
    [double] literal as [double]s, and [duration = 0.1] stores the [float]
    nearest to the literal. *)
Definition changeDurationAll (p : Pattern) (value : spec_float) : Pattern :=
  with_events p
    (for_each_copy
       (fun ev =>
          if negb (getCommand ev =? MIDI_NOTE_ON) then (ev, Continue)
          else
            let duration := f32_add (getDuration ev) value in
            if SFleb duration (f32_of_Z 0) then (ev, Return)
            else
              let duration :=
                if SFltb (f64_of_f32 duration) double_tenth
                then f32_of_f64 double_tenth else duration in
              (setDuration ev duration, Continue))
       (m_vEvents p)).

(** *** Queries and the rest of the class *)

(** The constructor [Pattern(beats, stepsPerBeat)].  The members [m_nScale],
    [m_nTonic] and [m_nRefNote] take the initial values pattern.h gives them,
    which are parameters here. *)
Definition newPattern (beats stepsPerBeat scale tonic refNote : Z) : Pattern :=
  snd (setStepsPerBeat (mkPattern beats stepsPerBeat scale tonic refNote [])
         stepsPerBeat).


(** The loop of [getNoteStart].  The end of the event is the [float] sum
    [float_end]; [int(std::ceil(...)) > step] compares an [int] with a
    [uint32_t], as unsigned, and is evaluated when the first test of the
    conjunction holds.  [None]: the conversion to [int] is undefined. *)
Fixpoint find_note_start (v : list StepEvent) (step note : Z) : option Z :=
  match v with
  | [] => Some (-1)
  | ev :: rest =>
      if getPosition ev <=? step then
        match f32_ceil_int (float_end (getPosition ev) (getDuration ev)) with
        | None => None
        | Some nEnd =>
            if (step <? u32 nEnd) && (getCommand ev =? MIDI_NOTE_ON)
               && (getValue1start ev =? note)
            then Some (s32 (getPosition ev))
            else find_note_start rest step note
        end
      else find_note_start rest step note
  end.

Definition getNoteStart (p : Pattern) (step note : Z) : option Z :=
  find_note_start (m_vEvents p) step note.

Fixpoint find_velocity (v : list StepEvent) (step note : Z) : Z :=
  match v with
  | [] => 0
  | ev :: rest =>
      if (getPosition ev =? step) && (getCommand ev =? MIDI_NOTE_ON)
         && (getValue1start ev =? note)
      then getValue2start ev
      else find_velocity rest step note
  end.

Definition getNoteVelocity (p : Pattern) (step note : Z) : Z :=
  find_velocity (m_vEvents p) step note.

Fixpoint find_duration (v : list StepEvent) (step note : Z) : spec_float :=
  match v with
  | [] => f32_of_Z 0
  | ev :: rest =>
      if negb (getPosition ev =? step) || negb (getCommand ev =? MIDI_NOTE_ON)
         || negb (getValue1start ev =? note)
      then find_duration rest step note
      else getDuration ev
  end.

Definition getNoteDuration (p : Pattern) (step note : Z) : spec_float :=
  if getSteps p <=? step then f32_of_Z 0
  else find_duration (m_vEvents p) step note.


(** [getLength]: the length of the pattern in clocks. *)
Definition getLength (p : Pattern) : Z := u32 (m_nBeats p * 24).

Definition getClocksPerStep (p : Pattern) : Z :=
  if (m_nStepsPerBeat p >? 24) || (m_nStepsPerBeat p =? 0) then 1
  else 24 / m_nStepsPerBeat p.

Definition clear (p : Pattern) : Pattern := with_events p [].

(** [getEventAt]: [None] is the null pointer. *)
Definition getEventAt (p : Pattern) (index : Z) : option StepEvent :=
  if Z.of_nat (length (m_vEvents p)) <=? index then None
  else m_vEvents p !! Z.to_nat index.

(** The loop of [getFirstEventAtStep], from the index [index]. *)
Fixpoint first_index (v : list StepEvent) (step index : Z) : Z :=
  match v with
  | [] => -1
  | ev :: rest =>
      if getPosition ev =? step then index
      else first_index rest step (index + 1)
  end.

Definition getFirstEventAtStep (p : Pattern) (step : Z) : Z :=
  first_index (m_vEvents p) step 0.

Definition getEvents (p : Pattern) : Z := Z.of_nat (length (m_vEvents p)).

(** The loop of [getLastStep], [nStep] being the greatest position so far. *)
Fixpoint last_step (v : list StepEvent) (nStep : Z) : Z :=
  match v with
  | [] => nStep
  | ev :: rest =>
      last_step rest (if getPosition ev >? nStep then getPosition ev else nStep)
  end.

(** [getLastStep]: -1 as a [uint32_t] for a pattern without events. *)
Definition getLastStep (p : Pattern) : Z :=
  if Nat.eqb (length (m_vEvents p)) 0 then u32 (-1)
  else last_step (m_vEvents p) 0.

(** *** Predicates of the properties *)

(** The events the first loop of [addEvent] keeps. *)
Definition kept (position command value1 : Z) (duration : spec_float)
  (ev : StepEvent) : bool :=
  negb (evicted position command value1 duration ev).

(** A note-on event that [value] semitones would take out of 0..127. *)
Definition leaves_range (value : Z) (ev : StepEvent) : Prop :=
  getCommand ev = MIDI_NOTE_ON /\ ~ (0 <= getValue1start ev + value <= 127).

(** The event [ev] with its note shifted by [value], when it is a note-on. *)
Definition shift_note (value : Z) (ev : StepEvent) : StepEvent :=
  if getCommand ev =? MIDI_NOTE_ON
  then mkStepEvent (m_nPosition ev) (m_fDuration ev) (m_nCommand ev)
         (m_nValue1start ev + value) (m_nValue2start ev)
         (m_nValue1start ev + value) (m_nValue2end ev)
  else ev.

(** The events as the vector of a pattern holds them: [uint8_t] notes. *)
Definition byte_notes (v : list StepEvent) : Prop :=
  Forall (fun ev => 0 <= getValue1start ev <= 255) v.

(** The event the second loop of [transpose] leaves in place of [ev]. *)
Definition transpose_event (value : Z) (ev : StepEvent) : StepEvent :=
  if getCommand ev =? MIDI_NOTE_ON
  then transposed ev (s32 (getValue1start ev + value))
  else ev.

(** Every stored event lies before the end of the pattern. *)
Definition bounded (p : Pattern) : Prop :=
  Forall (fun ev => getPosition ev < getSteps p) (m_vEvents p).

(** The event vector is in order of position. *)
Definition sorted_events (v : list StepEvent) : Prop :=
  StronglySorted (fun a b => getPosition a <= getPosition b) v.

(** The steps per beat a pattern may take. *)
Definition allowed_steps (n : Z) : Prop :=
  n = 1 \/ n = 2 \/ n = 3 \/ n = 4 \/ n = 6 \/ n = 8 \/ n = 12 \/ n = 24.

(** The program changes stored at [step]. *)
Definition programs_at (step : Z) (v : list StepEvent) : list StepEvent :=
  List.filter
    (fun ev => (getPosition ev =? step) && (getCommand ev =? MIDI_PROGRAM)) v.


(** The test of the note queries on an event. *)
Definition is_note (step note : Z) (ev : StepEvent) : bool :=
  (getPosition ev =? step) && (getCommand ev =? MIDI_NOTE_ON)
  && (getValue1start ev =? note).

(** The new note has a length for the code: its end, the [float] sum of its
    position and its duration, is after its position. *)
Definition has_length (step : Z) (duration : spec_float) : Prop :=
  SFltb (f32_of_Z step) (float_end step duration) = true.

(** The note-on event [ev] of pitch [note] sounds over [step]: it starts at
    or before the step and its end, the [float] sum of its position and its
    duration, is after the step. *)
Definition covers (step note : Z) (ev : StepEvent) : Prop :=
  getCommand ev = MIDI_NOTE_ON /\ getValue1start ev = note
  /\ getPosition ev <= step
  /\ exists fEnd,
       float_value (float_end (getPosition ev) (getDuration ev)) = Some fEnd
       /\ (inject_Z step < fEnd)%Q.

(** Positions that an [int] holds, and ends that are numbers whose ceiling a
    non-negative [int] holds. *)
Definition int_events (v : list StepEvent) : Prop :=
  Forall (fun ev =>
            0 <= getPosition ev <= INT_MAX
            /\ exists fEnd,
                 float_value (float_end (getPosition ev) (getDuration ev))
                 = Some fEnd
                 /\ 0 <= Qceiling fEnd <= INT_MAX) v.

(** The test of the program queries on an event. *)
Definition is_program (step : Z) (ev : StepEvent) : bool :=
  (getPosition ev =? step) && (getCommand ev =? MIDI_PROGRAM).

(** At most one program change on each step, none with the value 0xFF that
    [getProgramChange] returns for "no program change". *)
Definition one_program_per_step (v : list StepEvent) : Prop :=
  (forall step, (length (programs_at step v) <= 1)%nat)
  /\ Forall (fun ev => getCommand ev = MIDI_PROGRAM -> getValue1start ev <> 255) v.

(** The notes as [addNote] stores them: within 0..127, the end value equal to
    the start value. *)
Definition plain_notes (v : list StepEvent) : Prop :=
  Forall (fun ev => 0 <= getValue1start ev <= 255
                    /\ (getCommand ev = MIDI_NOTE_ON ->
                        getValue1start ev <= 127
                        /\ getValue1end ev = getValue1start ev)) v.

End Pattern.

(** * The schedule and its drain (zynseq.cpp) *)

Module Schedule.

(** A [MIDI_MESSAGE]: three bytes. *)
Record MIDI_MESSAGE : Type := mkMsg {
  command : Z;
  value1 : Z;
  value2 : Z
}.

(** [g_mSchedule]: the entries of the map in iteration order, which for a
    [std::map] is increasing key order.  The mapped pointer is [None] once the
    drain has deleted the message and nulled it. *)
Abbreviation schedule := (list (Z * option MIDI_MESSAGE)).

Definition keys (s : schedule) : list Z := map fst s.

(** [g_mSchedule.find(time)]: the mapped value, [None] for [end()]. *)
Fixpoint find (time : Z) (s : schedule) : option (option MIDI_MESSAGE) :=
  match s with
  | [] => None
  | (k, v) :: rest => if k =? time then Some v else find time rest
  end.

(** [g_mSchedule[time] = pMsg]. *)
Fixpoint assign (time : Z) (pMsg : option MIDI_MESSAGE) (s : schedule)
  : schedule :=
  match s with
  | [] => [(time, pMsg)]
  | (k, v) :: rest =>
      if time <? k then (time, pMsg) :: (k, v) :: rest
      else if time =? k then (k, pMsg) :: rest
      else (k, v) :: assign time pMsg rest
  end.

(** The search of [sendMidiMsg] for the first free time slot, from [time];
    [None] when [fuel] iterations did not find one. *)
Fixpoint free_slot (fuel : nat) (time : Z) (s : schedule) : option Z :=
  match fuel with
  | O => None
  | S fuel' =>
      match find time s with
      | Some _ => free_slot fuel' (u32 (time + 1)) s
      | None => Some time
      end
  end.

(** [sendMidiMsg(pMsg)], the flag [g_bMutex] apart. *)
Definition sendMidiMsg (pMsg : MIDI_MESSAGE) (s : schedule) : option schedule :=
  match free_slot (S (length s)) 0 s with
  | Some time => Some (assign time (Some pMsg) s)
  | None => None
  end.

(** Calls of [sendMidiMsg] one after the other, with nothing else touching
    the schedule between them. *)
Fixpoint sendMidiMsgs (msgs : list MIDI_MESSAGE) (s : schedule)
  : option schedule :=
  match msgs with
  | [] => Some s
  | pMsg :: rest =>
      match sendMidiMsg pMsg s with
      | Some s1 => sendMidiMsgs rest s1
      | None => None
      end
  end.

(** An event of the output buffer: three bytes reserved at [offset], written
    from the message when the mapped pointer is not null. *)
Record emission : Type := mkEmission {
  offset : Z;
  bytes : option MIDI_MESSAGE
}.

(** How the drain of one cycle ends. *)
Inductive drain_exit : Type :=
| Exhausted       (* the iterator reached [end()] *)
| Beyond          (* [break]: the entry is scheduled beyond this buffer *)
| Bumped          (* [return 0]: the entry was bumped past the end of the period *)
| ReserveFailed.  (* [break]: [jack_midi_event_reserve] gave NULL *)

Section Drain.

(** [jack_midi_event_reserve(pOutputBuffer, nTime, 3) != NULL], which depends
    on the events already in the buffer and on the offset asked for. *)
Variable reserve : list emission -> Z -> bool.

Variables nNow nFrames : Z.

(** The [while] loop of the drain.  [walked] are the entries before the
    iterator [it], their pointers nulled; [ahead] are the entries from [it] on;
    [out] is the output buffer.  Every exit but [return 0] runs
    [g_mSchedule.erase(g_mSchedule.begin(), it)]. *)
Fixpoint drain_loop (walked ahead : schedule) (nNextTime : Z)
  (out : list emission) : schedule * list emission * drain_exit :=
  match ahead with
  | [] => ([], out, Exhausted)
  | (first, second) :: ahead' =>
      if u32 (nNow + nFrames) <=? first then (ahead, out, Beyond)
      else
        let nTime := if first <? nNow then nNextTime else u32 (first - nNow) in
        let nTime := if nTime <? nNextTime then nNextTime else nTime in
        if nFrames <=? nTime then (walked ++ ahead, out, Bumped)
        else
          let nNextTime' := u32 (nTime + 1) in
          if negb (reserve out nTime) then (ahead, out, ReserveFailed)
          else
            drain_loop (walked ++ [(first, None)]) ahead' nNextTime'
              (out ++ [mkEmission nTime second])
  end.

(** The output part of [onJackProcess]: the schedule after the cycle, the
    output buffer and the exit taken. *)
Definition drain (s : schedule) : schedule * list emission * drain_exit :=
  drain_loop [] s 0 [].

(** The three parts of the result. *)
Definition remaining (s : schedule) : schedule := fst (fst (drain s)).
Definition emitted (s : schedule) : list emission := snd (fst (drain s)).
Definition exit_of (s : schedule) : drain_exit := snd (drain s).

End Drain.

(** The entry of a walked iterator: [it->second = NULL]. *)
Definition nulled (entry : Z * option MIDI_MESSAGE) : Z * option MIDI_MESSAGE :=
  (fst entry, None).

(** The invariant of a [std::map]: strictly increasing keys. *)
Definition ordered (s : schedule) : Prop := StronglySorted Z.lt (keys s).

(** Offsets that start at or after [lo] and increase strictly. *)
Fixpoint increasing_from (lo : Z) (l : list Z) : Prop :=
  match l with
  | [] => True
  | x :: rest => lo <= x /\ increasing_from (x + 1) rest
  end.

(** *** Song position pointer *)

(** Modelled from the spec: the MIDI status code of the song position pointer
    (0xF2) of constants.h, which is not among the sources. *)
Definition MIDI_POSITION : Z := 242.

(** [sendMidiSongPos]: the two 7-bit bytes of the [uint16_t] position. *)
Definition sendMidiSongPos (pos : Z) (s : schedule) : option schedule :=
  sendMidiMsg (mkMsg MIDI_POSITION (Z.land pos 127)
                 (Z.land (Z.shiftr pos 7) 127)) s.

(** The position in clocks that [onJackProcess] reads from the two data bytes
    of a song position pointer it receives. *)
Definition song_position_clocks (buffer1 buffer2 : Z) : Z :=
  u32 ((buffer1 + Z.shiftl buffer2 7) * 6).

End Schedule.

(** * The timebase driver (zynseq.cpp) *)

Module Transport.

(** The play states a song takes ([g_nSongStatus]). *)
Inductive play_state : Type := STOPPED | STARTING | PLAYING | STOPPING.

Definition play_state_eqb (a b : play_state) : bool :=
  match a, b with
  | STOPPED, STOPPED | STARTING, STARTING | PLAYING, PLAYING
  | STOPPING, STOPPING => true
  | _, _ => false
  end.

Inductive timebase_type : Type :=
| TIMEBASE_TYPE_TEMPO | TIMEBASE_TYPE_TIMESIG | TIMEBASE_TYPE_ANY.

(** A [TimebaseEvent] of timebase.h, with the fields the driver reads. *)
Record TimebaseEvent : Type := mkTimebaseEvent {
  bar : Z;
  clock : Z;
  type : timebase_type;
  value : Z
}.

(** [g_dTicksPerBeat] and [g_dTicksPerClock], which are never assigned. *)
Definition g_dTicksPerBeat : Q := 1920.
Definition g_dTicksPerClock : Q := g_dTicksPerBeat / 24.

(** The globals of the driver. *)
Record driver : Type := mkDriver {
  g_nSampleRate : Z;
  g_dTempo : Q;
  g_fBeatsPerBar : Q;
  g_fBeatType : Q;
  g_bTimebaseChanged : bool;
  g_nBar : Z;
  g_nBeat : Z;
  g_nTick : Z;
  g_nFramesToNextClock : Z;
  g_nTransportStartFrame : Z;
  g_dFramesPerClock : Q;
  g_nClock : Z;                       (* uint8_t *)
  g_nSongPosition : Z;
  g_nSongLength : Z;
  g_nSongStatus : play_state;
  g_bPlaying : bool;
  g_mSchedule : Schedule.schedule;
  g_pNextTimebaseEvent : list TimebaseEvent  (* the events from the cursor on *)
}.

Section Driver.

(** Rounding of a real result to the nearest [double]. *)
Variable rnd : Q -> Q.

(** [PatternManager::clock(nTime, pSchedule, bSync, dFramesPerClock)], which
    is not among the sources: the schedule it leaves and what it returns. *)
Variable pm_clock :
  Z -> Schedule.schedule -> bool -> Q -> Schedule.schedule * bool.

(** [getFramesPerTick]: [60 * g_nSampleRate] is a [uint32_t] product. *)
Definition getFramesPerTick (nSampleRate : Z) (dTempo : Q) : Q :=
  rnd (inject_Z (u32 (60 * nSampleRate)) / rnd (dTempo * g_dTicksPerBeat)).

Definition getFramesPerClock (nSampleRate : Z) (dTempo : Q) : Q :=
  rnd (getFramesPerTick nSampleRate dTempo * g_dTicksPerClock).

(** [onJackSampleRateChange]. *)
Definition onJackSampleRateChange (st : driver) (nFrames : Z) : driver :=
  mkDriver nFrames (g_dTempo st) (g_fBeatsPerBar st) (g_fBeatType st)
    (g_bTimebaseChanged st) (g_nBar st) (g_nBeat st) (g_nTick st)
    (g_nFramesToNextClock st) (g_nTransportStartFrame st)
    (getFramesPerClock nFrames (g_dTempo st)) (g_nClock st)
    (g_nSongPosition st) (g_nSongLength st) (g_nSongStatus st) (g_bPlaying st)
    (g_mSchedule st) (g_pNextTimebaseEvent st).

(** [transportSetTempo]. *)
Definition transportSetTempo (st : driver) (tempo : Z) : driver :=
  mkDriver (g_nSampleRate st) (inject_Z tempo) (g_fBeatsPerBar st)
    (g_fBeatType st) true (g_nBar st) (g_nBeat st) (g_nTick st)
    (g_nFramesToNextClock st) (g_nTransportStartFrame st)
    (g_dFramesPerClock st) (g_nClock st)
    (g_nSongPosition st) (g_nSongLength st) (g_nSongStatus st) (g_bPlaying st)
    (g_mSchedule st) (g_pNextTimebaseEvent st).

(** The body of the loop of [onJackTimebase] over the due timebase events,
    for the event [ev] under the cursor and the events [next] after it. *)
Definition timebase_event (st : driver) (ev : TimebaseEvent)
  (next : list TimebaseEvent) : driver :=
  match type ev with
  | TIMEBASE_TYPE_TEMPO =>
      let dTempo := inject_Z (value ev) in
      mkDriver (g_nSampleRate st) dTempo (g_fBeatsPerBar st) (g_fBeatType st)
        true (g_nBar st) (g_nBeat st) (g_nTick st)
        (g_nFramesToNextClock st) (g_nTransportStartFrame st)
        (getFramesPerClock (g_nSampleRate st) dTempo) (g_nClock st)
        (g_nSongPosition st) (g_nSongLength st) (g_nSongStatus st)
        (g_bPlaying st) (g_mSchedule st) next
  | TIMEBASE_TYPE_TIMESIG =>
      mkDriver (g_nSampleRate st) (g_dTempo st)
        (inject_Z (Z.shiftr (value ev) 8)) (inject_Z (Z.land (value ev) 15))
        true (g_nBar st) (g_nBeat st) (g_nTick st)
        (g_nFramesToNextClock st) (g_nTransportStartFrame st)
        (g_dFramesPerClock st) (g_nClock st)
        (g_nSongPosition st) (g_nSongLength st) (g_nSongStatus st)
        (g_bPlaying st) (g_mSchedule st) next
  | TIMEBASE_TYPE_ANY =>
      mkDriver (g_nSampleRate st) (g_dTempo st) (g_fBeatsPerBar st)
        (g_fBeatType st) (g_bTimebaseChanged st) (g_nBar st) (g_nBeat st)
        (g_nTick st) (g_nFramesToNextClock st) (g_nTransportStartFrame st)
        (g_dFramesPerClock st) (g_nClock st)
        (g_nSongPosition st) (g_nSongLength st) (g_nSongStatus st)
        (g_bPlaying st) (g_mSchedule st) next
  end.

(** The loop itself: it runs while the event under the cursor has
    [bar <= g_nBar]. *)
Fixpoint timebase_events (st : driver) (cursor : list TimebaseEvent) : driver :=
  match cursor with
  | [] => st
  | ev :: next =>
      if bar ev <=? g_nBar st
      then timebase_events (timebase_event st ev next) next
      else st
  end.

Definition process_timebase_events (st : driver) : driver :=
  timebase_events st (g_pNextTimebaseEvent st).

(** One iteration of the loop of [onJackTimebase] over the clocks of the next
    period, for a period of [nFramesInPeriod] frames at position [frame] with
    [nRemainingFrames] left: the driver after the iteration, the frames left
    and [bSync]. *)
Definition clock_pulse (st : driver) (nFramesInPeriod frame nRemainingFrames : Z)
  : driver * Z * bool :=
  let nClockPos :=
    u32 (g_nFramesToNextClock st + frame + g_nTransportStartFrame st
         + nFramesInPeriod) in
  let bOnBeat := g_nClock st =? 0 in
  let bSync := bOnBeat && (g_nBeat st =? 1) in
  let nTick :=
    if bOnBeat
    then float_to_u32 (rnd (g_dTicksPerBeat * inject_Z (u32 (g_nBeat st - 1))))
    else g_nTick st in
  let nSongPosition :=
    if bOnBeat && play_state_eqb (g_nSongStatus st) PLAYING
    then u32 (g_nSongPosition st + 1) else g_nSongPosition st in
  let nSongStatus1 :=
    if bOnBeat && play_state_eqb (g_nSongStatus st) PLAYING
       && (nSongPosition >? g_nSongLength st)
    then STOPPED else g_nSongStatus st in
  let nSongStatus2 :=
    if bOnBeat && bSync && play_state_eqb nSongStatus1 STARTING
    then PLAYING else nSongStatus1 in
  let '(mSchedule, bPlaying) :=
    pm_clock nClockPos (g_mSchedule st) bSync (g_dFramesPerClock st) in
  let nRemainingFrames' := u32 (nRemainingFrames - g_nFramesToNextClock st) in
  let nFramesToNextClock := float_to_u32 (g_dFramesPerClock st) in
  let nClock1 := u8 (g_nClock st + 1) in
  let bBeat := nClock1 >? 23 in
  let nClock := if bBeat then 0 else nClock1 in
  let nBeat1 := if bBeat then u32 (g_nBeat st + 1) else g_nBeat st in
  let bBar := bBeat && Qlt_bool (g_fBeatsPerBar st) (inject_Z nBeat1) in
  let nBeat := if bBar then 1 else nBeat1 in
  let nBar :=
    if bBar && play_state_eqb nSongStatus2 PLAYING
    then u32 (g_nBar st + 1) else g_nBar st in
  (mkDriver (g_nSampleRate st) (g_dTempo st) (g_fBeatsPerBar st)
     (g_fBeatType st) (g_bTimebaseChanged st) nBar nBeat nTick
     nFramesToNextClock (g_nTransportStartFrame st) (g_dFramesPerClock st)
     nClock nSongPosition (g_nSongLength st) nSongStatus2 bPlaying
     mSchedule (g_pNextTimebaseEvent st),
   nRemainingFrames', bSync).

(** The loop of [onJackTimebase] over the clocks of the next period; the
    fuel bounds its iterations, and [None] is a loop that has not ended. *)
Fixpoint clock_loop (fuel : nat) (st : driver)
  (nFramesInPeriod frame nRemainingFrames : Z) (bSync : bool)
  : option (driver * Z * bool) :=
  match fuel with
  | O => None
  | S fuel' =>
      if g_nFramesToNextClock st <? nRemainingFrames then
        let '(st', nRemainingFrames', bSync') :=
          clock_pulse st nFramesInPeriod frame nRemainingFrames in
        clock_loop fuel' st' nFramesInPeriod frame nRemainingFrames' bSync'
      else Some (st, nRemainingFrames, bSync)
  end.

(** The rolling branch of [onJackTimebase]: the loop from a whole period, then
    the frames to the next clock and the tick.  The flag tells that the
    transport is stopped and located at 0 ([bSync && !g_bPlaying]). *)
Definition roll (fuel : nat) (st : driver) (nFramesInPeriod frame : Z)
  : option (driver * bool) :=
  match clock_loop fuel st nFramesInPeriod frame nFramesInPeriod false with
  | None => None
  | Some (st1, nRemainingFrames, bSync) =>
      let nFramesToNextClock :=
        u32 (g_nFramesToNextClock st1 - nRemainingFrames) in
      let nTick :=
        float_to_u32
          (rnd (g_dTicksPerBeat
                - rnd (inject_Z nRemainingFrames
                       / getFramesPerTick (g_nSampleRate st1)
                           (g_dTempo st1)))) in
      Some
        (mkDriver (g_nSampleRate st1) (g_dTempo st1) (g_fBeatsPerBar st1)
           (g_fBeatType st1) (g_bTimebaseChanged st1) (g_nBar st1)
           (g_nBeat st1) nTick nFramesToNextClock
           (g_nTransportStartFrame st1) (g_dFramesPerClock st1) (g_nClock st1)
           (g_nSongPosition st1) (g_nSongLength st1) (g_nSongStatus st1)
           (g_bPlaying st1) (g_mSchedule st1) (g_pNextTimebaseEvent st1),
         bSync && negb (g_bPlaying st1))
  end.

(** Iterations of the loop in a row, one for each entry of [periods]: the
    period, the position and the frames left of the cycle it falls in. *)
Fixpoint clock_pulses (periods : list (Z * Z * Z)) (st : driver) : driver :=
  match periods with
  | [] => st
  | (nFramesInPeriod, frame, nRemainingFrames) :: rest =>
      clock_pulses rest
        (fst (fst (clock_pulse st nFramesInPeriod frame
                     nRemainingFrames)))
  end.

(** The beat after the last clock of the beat [g_nBeat]. *)
Definition next_beat (st : driver) : Z :=
  if Qlt_bool (g_fBeatsPerBar st) (inject_Z (g_nBeat st + 1)) then 1
  else g_nBeat st + 1.

End Driver.

(** The unit round-off of a [double], 2^-53. *)
Definition eps : Q := 1 # 9007199254740992.

(** [rnd] rounds as [double] arithmetic does in its normal range: the result
    of an operation is its real result but for a relative error of [eps]. *)
Definition rounds (rnd : Q -> Q) : Prop :=
  forall x : Q, (Qabs (rnd x - x) <= eps * Qabs x)%Q.

(** The frames per clock of the specification,
    (60 x sample rate) / (tempo x 24). *)
Definition frames_per_clock (nSampleRate tempo : Z) : Q :=
  (60 * inject_Z nSampleRate) / (inject_Z tempo * 24).

(** The tempo left by the due events [due], from the tempo [dTempo]. *)
Definition tempo_after (due : list TimebaseEvent) (dTempo : Q) : Q :=
  fold_left
    (fun t ev =>
       match type ev with
       | TIMEBASE_TYPE_TEMPO => inject_Z (value ev)
       | _ => t
       end) due dTempo.

(** The frames per clock are those of the tempo in force. *)
Definition tempo_matched (rnd : Q -> Q) (st : driver) : Prop :=
  g_dFramesPerClock st
  = getFramesPerClock rnd (g_nSampleRate st) (g_dTempo st).

End Transport.

(** * Concrete patterns, schedules and driver states of the scenarios *)

Module Scenario.

Import Pattern.

(** A new pattern of 4 beats and 4 steps per beat. *)
Definition empty_pattern : Pattern := mkPattern 4 4 0 0 60 [].

(** Scenario S5: one event at position 4 with duration 2. *)
Definition s5_event : StepEvent := newStepEvent 4 MIDI_NOTE_ON 60 100 (f32_of_Z 2).
Definition s5_pattern : Pattern := with_events empty_pattern [s5_event].

(** Scenario S4: the note added first and the note added second. *)
Definition s4_first : StepEvent := newStepEvent 0 MIDI_NOTE_ON 60 80 (f32_of_Z 4).
Definition s4_second : StepEvent := newStepEvent 2 MIDI_NOTE_ON 60 100 (f32_of_Z 4).

(** A note of 8 steps at step 0, and a note of 2 steps inside it. *)
Definition long_note : StepEvent := newStepEvent 0 MIDI_NOTE_ON 60 80 (f32_of_Z 8).
Definition inner_note : StepEvent := newStepEvent 2 MIDI_NOTE_ON 60 100 (f32_of_Z 2).
Definition long_pattern : Pattern := with_events empty_pattern [long_note].

(** A pattern with a note on its first step. *)
Definition first_step_note : StepEvent :=
  newStepEvent 0 MIDI_NOTE_ON 60 100 (f32_of_Z 1).
Definition first_step_pattern : Pattern :=
  with_events empty_pattern [first_step_note].

(** A pattern with two notes and a control, for [transpose]. *)
Definition chord_pattern : Pattern :=
  with_events empty_pattern
    [newStepEvent 0 MIDI_NOTE_ON 60 100 (f32_of_Z 1);
     newStepEvent 0 MIDI_CONTROL 7 90 (f32_of_Z 1);
     newStepEvent 4 MIDI_NOTE_ON 120 100 (f32_of_Z 1)].

Import Schedule.

Definition msg_a : MIDI_MESSAGE := mkMsg 144 60 100.
Definition msg_b : MIDI_MESSAGE := mkMsg 144 64 100.
Definition msg_c : MIDI_MESSAGE := mkMsg 144 67 100.

(** Two late entries and one due at the first frame of a period of two
    frames that starts at frame 100. *)
Definition crowded : schedule :=
  [(98, Some msg_a); (99, Some msg_b); (100, Some msg_c)].

(** An output buffer with room for every event. *)
Definition roomy (out : list emission) (nTime : Z) : bool := true.

(** An output buffer with room for a single event. *)
Definition single (out : list emission) (nTime : Z) : bool :=
  Nat.eqb (length out) 0.

Import Transport.

(** Exact arithmetic for the [double] operations. *)
Definition exact (q : Q) : Q := q.

(** A pattern manager with no sequence playing: it schedules nothing. *)
Definition idle_clock (nTime : Z) (s : schedule) (bSync : bool)
  (dFramesPerClock : Q) : schedule * bool := (s, false).

(** The driver on the last clock of the last beat of bar 1 in 4/4, at 120
    beats per minute and 48000 frames per second, the song stopped. *)
Definition last_clock_of_bar : driver :=
  mkDriver 48000 120 4 4 false 1 4 5760 0 0 1000 23 0 0 STOPPED true [] [].

(** A tempo event of 60 beats per minute at bar 1. *)
Definition tempo_60 : TimebaseEvent := mkTimebaseEvent 1 0 TIMEBASE_TYPE_TEMPO 60.

(** A pattern with the program change 5 on step 4. *)
Definition program_pattern : Pattern :=
  with_events empty_pattern [newStepEvent 4 MIDI_PROGRAM 5 0 (f32_of_Z 1)].

(** A duration of 2^-25 steps: the [float] sum of 1 and this duration is
    1. *)
Definition tiny : spec_float := S754_finite false 8388608 (-48).


(** A driver whose clock takes half a frame (240000 beats per minute at
    48000 frames per second). *)
Definition racing_clock : driver :=
  mkDriver 48000 240000 4 4 false 1 1 0 0 0 (1 # 2) 0 0 0 STOPPED true [] [].

End Scenario.

(** * Properties *)

(** ** Machine arithmetic *)

Lemma u32_small z : 0 <= z < 2 ^ 32 -> u32 z = z.
Proof. intros H. unfold u32. now apply Z.mod_small. Qed.

Lemma u32_range z : 0 <= u32 z < 2 ^ 32.
Proof. unfold u32. apply Z.mod_pos_bound. lia. Qed.

Lemma u8_small z : 0 <= z < 256 -> u8 z = z.
Proof. intros H. unfold u8. now apply Z.mod_small. Qed.

Lemma s32_small z : INT_MIN <= z <= INT_MAX -> s32 z = z.
Proof.
  unfold s32, INT_MIN, INT_MAX. intros H.
  rewrite Z.mod_small; lia.
Qed.

Lemma s32_high z : INT_MAX < z < 2 ^ 32 -> s32 z < 0.
Proof.
  unfold s32, INT_MAX. intros H.
  replace (z + 2 ^ 31) with ((z - 2 ^ 31) + 1 * 2 ^ 32) by lia.
  rewrite Z.mod_add by lia. rewrite Z.mod_small; lia.
Qed.

Lemma Qlt_bool_iff a b : Qlt_bool a b = true <-> (a < b)%Q.
Proof.
  unfold Qlt_bool. rewrite negb_true_iff.
  split; intros H.
  - apply Qnot_le_lt. intros Hle. apply Qle_bool_iff in Hle. congruence.
  - destruct (Qle_bool b a) eqn:E; [|reflexivity].
    apply Qle_bool_iff in E. exfalso. revert E. now apply Qlt_not_le.
Qed.

(** ** Patterns *)

Module PatternFacts.

Import Pattern.

Lemma with_events_same p : with_events p (m_vEvents p) = p.
Proof. now destruct p. Qed.

Lemma m_vEvents_with_events p v : m_vEvents (with_events p v) = v.
Proof. reflexivity. Qed.

Lemma getSteps_with_events p v : getSteps (with_events p v) = getSteps p.
Proof. reflexivity. Qed.

(** The steps of a pattern are the product of beats and steps per beat as
    long as the product fits 32 bits, and never more than it. *)
Lemma getSteps_exact p :
  0 <= m_nBeats p * m_nStepsPerBeat p < 2 ^ 32 ->
  getSteps p = m_nBeats p * m_nStepsPerBeat p.
Proof. apply u32_small. Qed.

Lemma getSteps_le p :
  0 <= m_nBeats p * m_nStepsPerBeat p ->
  getSteps p <= m_nBeats p * m_nStepsPerBeat p.
Proof. intros H. unfold getSteps, u32. apply Z.mod_le; lia. Qed.

(** A loop whose variable is a copy leaves the vector as it was, whatever
    its body does to the copy. *)
Lemma for_each_copy_id body v : for_each_copy body v = v.
Proof.
  induction v as [|elem rest IH]; simpl; [reflexivity|].
  destruct (body elem) as [ev' [|]]; [now rewrite IH | reflexivity].
Qed.

(** The first loop of [addEvent] erases exactly the events that [evicted]
    selects: from index [i] on, it filters the rest of the vector. *)
Lemma erase_loop_from fuel : forall (i : nat) v position command value1 duration,
  (i <= length v)%nat -> (length v - i <= fuel)%nat ->
  erase_loop fuel (Z.of_nat i) v position command value1 duration
  = take i v ++ List.filter (kept position command value1 duration) (drop i v).
Proof.
  induction fuel as [|fuel IH]; intros i v position command value1 duration Hi Hf.
  - simpl. assert (i = length v) as -> by lia.
    rewrite take_ge, drop_ge by lia. now rewrite app_nil_r.
  - simpl. destruct (Z.eqb_spec (Z.of_nat i) (Z.of_nat (length v))) as [E|E].
    + assert (i = length v) as -> by lia.
      rewrite take_ge, drop_ge by lia. now rewrite app_nil_r.
    + assert (i < length v)%nat as Hlt by lia.
      rewrite Nat2Z.id.
      destruct (lookup_lt_is_Some_2 v i Hlt) as [ev Hev].
      rewrite Hev, (drop_S v ev i Hev). simpl. unfold kept at 1.
      destruct (evicted position command value1 duration ev) eqn:Hx; simpl.
      * assert (length (delete i v) = (length v - 1)%nat) as Hlen
          by (apply length_delete; eauto).
        destruct (Z.eqb_spec (Z.of_nat i - 1) (Z.of_nat (length (delete i v))))
          as [E'|E']; [lia|].
        replace (Z.of_nat i - 1 + 1) with (Z.of_nat i) by lia.
        rewrite IH by lia.
        rewrite delete_take_drop.
        rewrite take_app_le by (rewrite length_take; lia).
        rewrite take_take, Nat.min_id.
        rewrite drop_app_length' by (rewrite length_take; lia).
        reflexivity.
      * replace (Z.of_nat i + 1) with (Z.of_nat (S i)) by lia.
        rewrite IH by lia.
        rewrite (take_S_r v i ev Hev), <- app_assoc. reflexivity.
Qed.

Lemma erase_loop_filter v position command value1 duration :
  erase_loop (length v) 0 v position command value1 duration
  = List.filter (kept position command value1 duration) v.
Proof.
  change 0 with (Z.of_nat 0).
  rewrite erase_loop_from by lia. now rewrite take_0, drop_0.
Qed.

Lemma insert_index_le v position : (insert_index v position <= length v)%nat.
Proof.
  induction v as [|ev rest IH]; simpl; [lia|].
  destruct (getPosition ev >? position); simpl; lia.
Qed.

(** The events of the pattern after [addEvent]. *)
Lemma addEvent_events p position command value1 value2 duration :
  let v := List.filter (kept position command value1 duration) (m_vEvents p) in
  let it := insert_index v position in
  addEvent p position command value1 value2 duration
  = (with_events p
       (take it v
        ++ newStepEvent position command value1 value2 duration :: drop it v),
     it).
Proof.
  unfold addEvent, vector_insert. now rewrite erase_loop_filter.
Qed.

(** The pointer [addEvent] returns is to the new event. *)
Lemma addEvent_lookup p position command value1 value2 duration :
  let r := addEvent p position command value1 value2 duration in
  m_vEvents (fst r) !! snd r
  = Some (newStepEvent position command value1 value2 duration).
Proof.
  rewrite addEvent_events. simpl.
  set (v := List.filter _ _).
  rewrite lookup_app_r; rewrite length_take;
    pose proof (insert_index_le v position); [|lia].
  replace (_ - _)%nat with 0%nat by lia. reflexivity.
Qed.

Lemma addEvent_In p position command value1 value2 duration :
  In (newStepEvent position command value1 value2 duration)
     (m_vEvents (fst (addEvent p position command value1 value2 duration))).
Proof.
  apply list_elem_of_In. eapply list_elem_of_lookup_2. apply addEvent_lookup.
Qed.

(** An event of the pattern after [addEvent] is the new event or an event the
    pattern had. *)
Lemma addEvent_origin p position command value1 value2 duration ev :
  In ev (m_vEvents (fst (addEvent p position command value1 value2 duration))) ->
  ev = newStepEvent position command value1 value2 duration
  \/ (In ev (m_vEvents p)
      /\ evicted position command value1 duration ev = false).
Proof.
  rewrite addEvent_events. simpl. set (v := List.filter _ _).
  intros H. apply in_app_or in H.
  assert (forall e, In e v ->
            In e (m_vEvents p)
            /\ evicted position command value1 duration e = false) as Hv.
  { intros e He. apply filter_In in He as [He Hk]. split; [exact He|].
    unfold kept in Hk. now apply negb_true_iff in Hk. }
  assert (forall e n, In e (take n v) \/ In e (drop n v) -> In e v) as Hsub.
  { intros e n He. rewrite <- (take_drop n v). apply in_or_app. exact He. }
  destruct H as [H|[H|H]].
  - right. apply Hv. eapply Hsub. left. exact H.
  - left. now symmetry.
  - right. apply Hv. eapply Hsub. right. exact H.
Qed.

(** *** Edits through a copy of the event *)

(** C10: [setNoteVelocity], [changeVelocityAll] and [changeDurationAll] leave
    the pattern, and so its stored event list, as it was: the loops of the
    three functions change a copy of each event and never the element of the
    vector. *)
Theorem copy_edits_leave_pattern p step note velocity dVelocity dDuration :
  setNoteVelocity p step note velocity = p
  /\ changeVelocityAll p dVelocity = p
  /\ changeDurationAll p dDuration = p.
Proof.
  unfold setNoteVelocity, changeVelocityAll, changeDurationAll.
  rewrite !for_each_copy_id, with_events_same.
  repeat split. now destruct (velocity >? 127).
Qed.

(** [setStepsPerBeat] never changes the events, only the grid. *)
Lemma setStepsPerBeat_events p value :
  m_vEvents (snd (setStepsPerBeat p value)) = m_vEvents p.
Proof.
  unfold setStepsPerBeat.
  destruct ((m_nStepsPerBeat p =? 0) || (m_nStepsPerBeat p >? 24));
    destruct ((value =? 1) || (value =? 2) || (value =? 3) || (value =? 4)
              || (value =? 6) || (value =? 8) || (value =? 12) || (value =? 24));
    simpl; now rewrite ?for_each_copy_id.
Qed.

(** C3: on the pattern of scenario S5 (4 steps per beat, one event at position
    4 with duration 2) [setStepsPerBeat(8)] succeeds and sets the grid to 8
    steps per beat, and the event is still at position 4 with duration 2: it
    was not scaled to position 8 and duration 4. *)
Theorem setStepsPerBeat_keeps_s5_event :
  let r := setStepsPerBeat Scenario.s5_pattern 8 in
  fst r = true
  /\ m_nStepsPerBeat (snd r) = 8
  /\ m_vEvents (snd r) = [Scenario.s5_event]
  /\ getPosition Scenario.s5_event = 4
  /\ float_value (getDuration Scenario.s5_event) = Some 2%Q.
Proof. vm_compute. repeat split. Qed.

(** *** Eviction of overlapping events *)

(** What the test of [addEvent] means: the start of the stored event lies in
    [position, position + duration), or its end lies in
    (position, position + duration], the ends being [float] sums. *)
Lemma bOverlap_iff position duration ev :
  let fEventEnd := float_end position duration in
  let fCheckEnd := float_end (getPosition ev) (getDuration ev) in
  bOverlap position duration ev = true <->
  (position <= getPosition ev
   /\ SFltb (f32_of_Z (getPosition ev)) fEventEnd = true)
  \/ (SFltb (f32_of_Z position) fCheckEnd = true
      /\ SFleb fCheckEnd fEventEnd = true).
Proof.
  cbv zeta. unfold bOverlap.
  rewrite orb_true_iff, !andb_true_iff, Z.leb_le.
  reflexivity.
Qed.

(** Scenario S4: the second note evicts the first, which it overlaps. *)
Lemma addNote_s4 :
  let p1 := snd (addNote Scenario.empty_pattern 0 60 80 (f32_of_Z 4)) in
  m_vEvents p1 = [Scenario.s4_first]
  /\ addNote p1 2 60 100 (f32_of_Z 4)
     = (true, with_events Scenario.empty_pattern [Scenario.s4_second]).
Proof. vm_compute. split; reflexivity. Qed.

(** C2: a stored note over the steps [0, 8) and a new note of the same pitch
    over [2, 4) overlap, and [addNote] keeps the stored note: its start is
    before the new note and its end is after it, which the test of [addEvent]
    does not cover. *)
Theorem addNote_keeps_enclosing_note :
  addNote Scenario.long_pattern 2 60 100 (f32_of_Z 2)
  = (true,
     with_events Scenario.empty_pattern
       [Scenario.long_note; Scenario.inner_note])
  /\ getCommand Scenario.long_note = getCommand Scenario.inner_note
  /\ getValue1start Scenario.long_note = getValue1start Scenario.inner_note
  /\ float_value (getDuration Scenario.long_note) = Some 8%Q
  /\ float_value (getDuration Scenario.inner_note) = Some 2%Q
  /\ (inject_Z (getPosition Scenario.long_note)
      < inject_Z (getPosition Scenario.inner_note) + 2)%Q
  /\ (inject_Z (getPosition Scenario.inner_note)
      < inject_Z (getPosition Scenario.long_note) + 8)%Q.
Proof. vm_compute. repeat split. Qed.

(** *** addNote *)

(** C7: [addNote] returns false and leaves the pattern as it was exactly when
    the step is at or past the steps of the pattern (the 32-bit product of
    beats and steps per beat), or the note or the velocity is over 127;
    otherwise it returns true and the pattern holds the new note-on event,
    its grid unchanged. *)
Theorem addNote_guard p step note velocity duration :
  let rejected := getSteps p <= step \/ note > 127 \/ velocity > 127 in
  let r := addNote p step note velocity duration in
  ((fst r = false /\ snd r = p) <-> rejected)
  /\ (rejected -> r = (false, p))
  /\ (~ rejected ->
      fst r = true
      /\ In (newStepEvent step MIDI_NOTE_ON note velocity duration)
            (m_vEvents (snd r))
      /\ m_nBeats (snd r) = m_nBeats p
      /\ m_nStepsPerBeat (snd r) = m_nStepsPerBeat p).
Proof.
  cbv zeta. unfold addNote.
  destruct ((getSteps p <=? step) || (note >? 127) || (velocity >? 127)) eqn:G.
  - assert (getSteps p <= step \/ note > 127 \/ velocity > 127) as Hr.
    { rewrite !orb_true_iff in G.
      destruct G as [[G|G]|G]; [left|right; left|right; right]; lia. }
    simpl. repeat split; tauto.
  - assert (~ (getSteps p <= step \/ note > 127 \/ velocity > 127)) as Hr.
    { rewrite !orb_false_iff in G. destruct G as [[G1 G2] G3]. lia. }
    simpl. repeat split; try tauto; try (intros [? ?]; discriminate).
    apply addEvent_In.
Qed.

(** *** transpose *)

(** The range test of [transpose] on the [int] sum agrees with the test on
    the sum of integers. *)
Lemma note_test value1 value :
  0 <= value1 <= 255 -> INT_MIN <= value <= INT_MAX ->
  let note := s32 (value1 + value) in
  ((note >? 127) || (note <? 0) = false <-> 0 <= value1 + value <= 127)
  /\ (0 <= value1 + value <= 127 -> note = value1 + value).
Proof.
  intros H1 Hv. cbv zeta.
  destruct (Z_le_gt_dec (value1 + value) INT_MAX) as [Hs|Hs].
  - rewrite s32_small by (unfold INT_MIN, INT_MAX in *; lia).
    rewrite orb_false_iff. split; [|reflexivity]. lia.
  - pose proof (s32_high (value1 + value)) as Hh.
    unfold INT_MIN, INT_MAX in *.
    rewrite orb_false_iff. split; [|lia]. lia.
Qed.

Lemma transpose_check_true v value :
  byte_notes v -> INT_MIN <= value <= INT_MAX ->
  Exists (leaves_range value) v -> transpose_check v value = true.
Proof.
  intros Hb Hv. induction 1 as [ev rest [Hc Hr]|ev rest _ IH]; simpl.
  - inversion Hb as [|? ? H1 _]; subst. rewrite Hc, Z.eqb_refl. simpl.
    destruct (note_test _ _ H1 Hv) as [Ht _].
    destruct (_ || _); [reflexivity|]. exfalso. apply Hr. now apply Ht.
  - inversion Hb as [|? ? _ Hb']; subst.
    destruct (negb _); [now apply IH|].
    destruct (_ || _); [reflexivity|now apply IH].
Qed.

Lemma transpose_check_false v value :
  byte_notes v -> INT_MIN <= value <= INT_MAX ->
  ~ Exists (leaves_range value) v -> transpose_check v value = false.
Proof.
  intros Hb Hv. induction v as [|ev rest IH]; intros Hn; simpl; [reflexivity|].
  inversion Hb as [|? ? H1 Hb']; subst.
  assert (~ Exists (leaves_range value) rest) as Hn'
    by (intros Hx; apply Hn; now right).
  destruct (Z.eqb_spec (getCommand ev) MIDI_NOTE_ON) as [Hc|Hc]; simpl;
    [|now apply IH].
  destruct (note_test _ _ H1 Hv) as [Ht _].
  destruct (_ || _) eqn:E; [|now apply IH].
  exfalso. apply Hn. left. split; [exact Hc|]. intros Hr.
  apply Ht in Hr. congruence.
Qed.

(** Past a first loop that did not return, the second loop of [transpose] ends
    at [end()] and has rewritten every event from [it] on; it never erases. *)
Lemma transpose_loop_from value fuel : forall it v,
  (it <= length v)%nat -> (length v - it < fuel)%nat ->
  transpose_check (drop it v) value = false ->
  transpose_loop fuel it v value
  = Some (take it v ++ map (transpose_event value) (drop it v)).
Proof.
  induction fuel as [|fuel IH]; intros it v Hit Hf Hc; [lia|].
  simpl. destruct (Nat.eqb_spec it (length v)) as [E|E].
  - subst it. rewrite take_ge, drop_ge by lia. now rewrite app_nil_r.
  - assert (it < length v)%nat as Hlt by lia.
    destruct (lookup_lt_is_Some_2 v it Hlt) as [ev Hev].
    rewrite Hev. rewrite (drop_S v ev it Hev) in Hc |- *. simpl in Hc |- *.
    unfold transpose_event at 1.
    destruct (Z.eqb_spec (getCommand ev) MIDI_NOTE_ON) as [Hcmd|Hcmd];
      simpl in Hc |- *.
    + destruct (_ || _) eqn:Hrange; [discriminate|].
      rewrite IH.
      * rewrite (take_S_r _ it (transposed ev (s32 (getValue1start ev + value)))).
        -- rewrite take_alter_ge, drop_alter_lt by lia.
           now rewrite <- app_assoc.
        -- rewrite list_lookup_alter_eq, Hev. reflexivity.
      * rewrite length_alter. lia.
      * rewrite length_alter. lia.
      * rewrite drop_alter_lt by lia. exact Hc.
    + rewrite IH by (try lia; exact Hc).
      rewrite (take_S_r v it ev Hev), <- app_assoc. reflexivity.
Qed.

Lemma transpose_event_shift value ev :
  0 <= getValue1start ev <= 255 -> INT_MIN <= value <= INT_MAX ->
  ~ leaves_range value ev ->
  transpose_event value ev = shift_note value ev.
Proof.
  intros H1 Hv Hn. unfold transpose_event, shift_note.
  destruct (Z.eqb_spec (getCommand ev) MIDI_NOTE_ON) as [Hc|Hc];
    [|reflexivity].
  assert (0 <= getValue1start ev + value <= 127) as Hr.
  { destruct (Z_le_gt_dec 0 (getValue1start ev + value));
      destruct (Z_le_gt_dec (getValue1start ev + value) 127);
      try lia; exfalso; apply Hn; split; try exact Hc; lia. }
  destruct (note_test _ _ H1 Hv) as [_ Hs]. rewrite (Hs Hr).
  unfold transposed, setValue1end, setValue1start, getValue1start in *. simpl.
  rewrite u8_small by lia. reflexivity.
Qed.

(** C4: [transpose] is all or nothing.  For an [int] value and a pattern
    whose events hold [uint8_t] notes: if the value would take the note of some
    note-on event out of 0..127 the call returns with the pattern as it was;
    otherwise the call returns the pattern with the note of every note-on
    event shifted by the value and everything else as it was. *)
Theorem transpose_all_or_nothing p value :
  INT_MIN <= value <= INT_MAX ->
  byte_notes (m_vEvents p) ->
  (Exists (leaves_range value) (m_vEvents p) -> transpose p value = Some p)
  /\ (~ Exists (leaves_range value) (m_vEvents p) ->
      transpose p value
      = Some (with_events p (map (shift_note value) (m_vEvents p)))).
Proof.
  intros Hv Hb. unfold transpose. split; intros Hx.
  - now rewrite transpose_check_true.
  - rewrite transpose_check_false by assumption.
    rewrite transpose_loop_from;
      [|lia|lia|rewrite drop_0; now apply transpose_check_false].
    rewrite take_0, drop_0. simpl. do 2 f_equal.
    apply map_ext_in. intros ev Hin. apply transpose_event_shift.
    + unfold byte_notes in Hb. rewrite List.Forall_forall in Hb. now apply Hb.
    + exact Hv.
    + intros Hl. apply Hx. apply List.Exists_exists. eauto.
Qed.

(** [transpose] applied to a chord within range and to one out of range. *)
Lemma transpose_all_or_nothing_witness :
  transpose Scenario.chord_pattern 7
  = Some (with_events Scenario.chord_pattern
            (map (shift_note 7) (m_vEvents Scenario.chord_pattern)))
  /\ transpose Scenario.chord_pattern 8 = Some Scenario.chord_pattern.
Proof.
  assert (INT_MIN <= 7 <= INT_MAX) as H7 by (unfold INT_MIN, INT_MAX; lia).
  assert (INT_MIN <= 8 <= INT_MAX) as H8 by (unfold INT_MIN, INT_MAX; lia).
  assert (byte_notes (m_vEvents Scenario.chord_pattern)) as Hb.
  { repeat constructor; simpl; lia. }
  split.
  - apply (transpose_all_or_nothing Scenario.chord_pattern 7 H7 Hb).
    intros Hx. apply List.Exists_exists in Hx as [ev [Hin [Hc Hr]]].
    simpl in Hin. destruct Hin as [<-|[<-|[<-|[]]]]; simpl in *;
      try lia; discriminate.
  - apply (transpose_all_or_nothing Scenario.chord_pattern 8 H8 Hb).
    apply List.Exists_exists.
    exists (newStepEvent 4 MIDI_NOTE_ON 120 100 (f32_of_Z 1)).
    split; [simpl; tauto|]. split; [reflexivity|simpl; lia].
Defined.

(** *** The bound on positions *)

Lemma bounded_In p :
  bounded p <-> forall ev, In ev (m_vEvents p) -> getPosition ev < getSteps p.
Proof. unfold bounded. apply List.Forall_forall. Qed.

Lemma addEvent_bounded p position command value1 value2 duration :
  position < getSteps p -> bounded p ->
  bounded (fst (addEvent p position command value1 value2 duration)).
Proof.
  intros Hpos Hb. apply bounded_In. intros ev Hin.
  replace (getSteps (fst (addEvent p position command value1 value2 duration)))
    with (getSteps p) by now rewrite addEvent_events.
  apply addEvent_origin in Hin as [->|[Hin _]]; [exact Hpos|].
  now apply (proj1 (bounded_In p) Hb).
Qed.

Lemma delete_first_In v position command value1 ev :
  In ev (delete_first v position command value1) -> In ev v.
Proof.
  induction v as [|e rest IH]; simpl; [tauto|].
  destruct (_ && _); simpl; [tauto|]. intros [H|H]; [now left|right; auto].
Qed.

Lemma deleteEvent_bounded p position command value1 :
  bounded p -> bounded (deleteEvent p position command value1).
Proof.
  intros Hb. apply bounded_In. intros ev Hin.
  apply delete_first_In in Hin. now apply (proj1 (bounded_In p) Hb).
Qed.

Lemma removeProgramChange_bounded p step :
  bounded p -> bounded (snd (removeProgramChange p step)).
Proof.
  intros Hb. unfold removeProgramChange.
  destruct (getSteps p <=? step); [exact Hb|].
  destruct (_ =? 255); [exact Hb|]. now apply deleteEvent_bounded.
Qed.

Lemma removeProgramChange_steps p step :
  getSteps (snd (removeProgramChange p step)) = getSteps p.
Proof.
  unfold removeProgramChange.
  destruct (getSteps p <=? step); [reflexivity|].
  now destruct (_ =? 255).
Qed.

(** The events [setBeatsInPattern] keeps lie before [steps]. *)
Lemma shrink_index_bound v steps :
  Forall (fun ev => getPosition ev < steps) (take (shrink_index v steps) v).
Proof.
  induction v as [|ev rest IH]; simpl; [constructor|].
  destruct (Z.leb_spec steps (getPosition ev)); simpl; constructor; auto.
Qed.

(** [addControl] takes a step equal to the steps of the pattern, which
    [addNote] and [addProgramChange] refuse, and stores the event there. *)
Lemma addControl_at_end :
  let r := addControl Scenario.empty_pattern 16 7 0 127 (f32_of_Z 1) in
  getSteps Scenario.empty_pattern = 16
  /\ fst r = true
  /\ map getPosition (m_vEvents (snd r)) = [16]
  /\ fst (addNote Scenario.empty_pattern 16 60 100 (f32_of_Z 1)) = false.
Proof. vm_compute. repeat split. Qed.

(** C8, as the code has it by design: from a pattern whose events lie before
    its end, every successful [addNote] and [addProgramChange], and every
    successful [addControl] at a step before the end, gives a pattern whose
    events lie before its end; after [setBeatsInPattern(b)] with [b > 0] the
    pattern has [b] beats and every remaining event lies before the 32-bit
    product of [b] and the steps per beat; [setBeatsInPattern(0)] keeps the
    beats of the pattern and every remaining event lies before its end. *)
Theorem position_bound_kept default_value2 default_duration p :
  bounded p ->
  (forall step note velocity duration p',
     addNote p step note velocity duration = (true, p') -> bounded p')
  /\ (forall step program p',
        addProgramChange default_value2 default_duration p step program
        = (true, p') -> bounded p')
  /\ (forall step control valueStart valueEnd duration p',
        step < getSteps p ->
        addControl p step control valueStart valueEnd duration = (true, p') ->
        bounded p')
  /\ (forall b, 0 < b ->
        let p' := setBeatsInPattern p b in
        m_nBeats p' = b
        /\ Forall (fun ev => getPosition ev < u32 (b * m_nStepsPerBeat p))
             (m_vEvents p'))
  /\ (let p' := setBeatsInPattern p 0 in
      m_nBeats p' = m_nBeats p /\ bounded p').
Proof.
  intros Hb. repeat apply conj.
  - intros step note velocity duration p'. unfold addNote.
    destruct (_ || _) eqn:G; [discriminate|]. intros [= <-].
    rewrite !orb_false_iff in G. destruct G as [[G _] _].
    apply addEvent_bounded; [lia|exact Hb].
  - intros step program p'. unfold addProgramChange.
    destruct (_ || _) eqn:G; [discriminate|]. intros [= <-].
    rewrite !orb_false_iff in G. destruct G as [G _].
    apply addEvent_bounded.
    + rewrite removeProgramChange_steps. lia.
    + now apply removeProgramChange_bounded.
  - intros step control valueStart valueEnd duration p' Hstep.
    unfold addControl.
    destruct (_ || _) eqn:G; [discriminate|].
    pose proof (addEvent_bounded p step MIDI_CONTROL control valueStart
                  duration Hstep Hb) as Ha.
    destruct (addEvent p step MIDI_CONTROL control valueStart duration)
      as [p1 pEvent].
    intros [= <-]. simpl in Ha. unfold bounded, update_at in *. simpl.
    change (getSteps (with_events p1 _)) with (getSteps p1).
    apply Forall_alter; [exact Ha|]. intros ev _ Hev. exact Hev.
  - intros b Hpos. cbv zeta. unfold setBeatsInPattern.
    destruct (Z.gtb_spec b 0); [|lia]. simpl. split; [reflexivity|].
    apply shrink_index_bound.
  - reflexivity.
  - unfold setBeatsInPattern, bounded. simpl.
    change (getSteps (with_events p _)) with (getSteps p).
    apply shrink_index_bound.
Qed.

Lemma position_bound_kept_witness :
  bounded (snd (addNote Scenario.first_step_pattern 15 64 100 (f32_of_Z 1)))
  /\ (let p' := setBeatsInPattern Scenario.first_step_pattern 2 in
      m_nBeats p' = 2
      /\ Forall (fun ev => getPosition ev < u32 (2 * 4)) (m_vEvents p')).
Proof.
  assert (bounded Scenario.first_step_pattern) as Hb.
  { repeat constructor. }
  pose proof (position_bound_kept 0 (f32_of_Z 1) Scenario.first_step_pattern
                Hb) as [Hnote [_ [_ [Hbeats _]]]].
  split.
  - apply (Hnote 15 64 100 (f32_of_Z 1)). reflexivity.
  - apply (Hbeats 2). lia.
Defined.

(** C8 as stated fails for [setBeatsInPattern(0)], which leaves the beats as
    they are: the note on the first step stays, and 0 is not below 0 times the
    steps per beat. *)
Lemma setBeatsInPattern_zero_keeps_events :
  let p' := setBeatsInPattern Scenario.first_step_pattern 0 in
  exists ev, In ev (m_vEvents p')
             /\ ~ (getPosition ev < 0 * m_nStepsPerBeat p').
Proof.
  exists Scenario.first_step_note. split; [now left|]. simpl. lia.
Qed.

End PatternFacts.

(** ** The schedule *)

Module ScheduleFacts.

Import Schedule.

Lemma increasing_from_weaken lo lo' l :
  lo' <= lo -> increasing_from lo l -> increasing_from lo' l.
Proof. destruct l; simpl; [tauto|]. intros H [H1 H2]. split; [lia|exact H2]. Qed.

Lemma increasing_from_bound lo l :
  increasing_from lo l -> Forall (fun x => lo <= x) l.
Proof.
  revert lo. induction l as [|x rest IH]; intros lo; simpl; [constructor|].
  intros [H1 H2]. constructor; [exact H1|].
  apply IH in H2. eapply Forall_impl; [exact H2|]. simpl. intros; lia.
Qed.

Lemma increasing_from_sorted lo l :
  increasing_from lo l -> StronglySorted Z.lt l.
Proof.
  revert lo. induction l as [|x rest IH]; intros lo; simpl; [constructor|].
  intros [H1 H2]. constructor; [now apply (IH (x + 1))|].
  apply increasing_from_bound in H2.
  eapply Forall_impl; [exact H2|]. simpl. intros; lia.
Qed.

(** The exits of the loop that emit nothing more. *)
Ltac nothing_emitted :=
  exists []; simpl; rewrite ?app_nil_r;
  repeat split; try solve [constructor]; try discriminate; try congruence;
  try lia.

Section DrainFacts.

Variable reserve : list emission -> Z -> bool.
Variables nNow nFrames : Z.
Hypothesis frames_range : nFrames < 2 ^ 32.

(** What one run of the loop of the drain does, from any iterator position:
    it emits the first [n] entries ahead, in their order, at increasing
    offsets inside the period; every exit but [return 0] leaves the entries
    it did not emit, and [return 0] leaves every entry. *)
Lemma drain_loop_inv ahead : forall walked nNextTime out,
  0 <= nNextTime ->
  let r := drain_loop reserve nNow nFrames walked ahead nNextTime out in
  exists new,
    (length new <= length ahead)%nat
    /\ snd (fst r) = out ++ new
    /\ map bytes new = map snd (take (length new) ahead)
    /\ increasing_from nNextTime (map offset new)
    /\ Forall (fun e => offset e < nFrames) new
    /\ (snd r <> Bumped -> fst (fst r) = drop (length new) ahead)
    /\ (snd r = Bumped ->
        fst (fst r)
        = walked ++ map nulled (take (length new) ahead)
          ++ drop (length new) ahead
        /\ (length new < length ahead)%nat).
Proof.
  induction ahead as [|[first second] ahead' IH]; intros walked nNextTime out Hn.
  - nothing_emitted.
  - cbv zeta. simpl drain_loop.
    destruct (u32 (nNow + nFrames) <=? first); [nothing_emitted|].
    set (nTime0 := if first <? nNow then nNextTime else u32 (first - nNow)).
    set (nTime := if nTime0 <? nNextTime then nNextTime else nTime0).
    assert (nNextTime <= nTime) as Hle.
    { unfold nTime. destruct (Z.ltb_spec nTime0 nNextTime); lia. }
    destruct (Z.leb_spec nFrames nTime) as [Hb|Hb].
    { nothing_emitted. }
    destruct (reserve out nTime); simpl negb; cbv iota; [|nothing_emitted].
    rewrite (u32_small (nTime + 1)) by lia.
    destruct (IH (walked ++ [(first, None)]) (nTime + 1)
                (out ++ [mkEmission nTime second])) as [new H]; [lia|].
    cbv zeta in H.
    destruct H as (Hlen & Hout & Hbytes & Hinc & Hlt & Hkeep & Hbump).
    exists (mkEmission nTime second :: new). simpl.
    repeat apply conj.
    + lia.
    + rewrite Hout, <- app_assoc. reflexivity.
    + now rewrite Hbytes.
    + exact Hle.
    + exact Hinc.
    + constructor; [simpl; lia|exact Hlt].
    + exact Hkeep.
    + intros Hx. destruct (Hbump Hx) as [Hs Hl]. split; [|lia].
      rewrite Hs, <- app_assoc. reflexivity.
Qed.

(** The offsets of the events of the output buffer increase strictly. *)
Lemma emitted_increasing s :
  StronglySorted Z.lt (map offset (emitted reserve nNow nFrames s)).
Proof.
  destruct (drain_loop_inv s [] 0 []) as [new H]; [lia|].
  destruct H as (_ & Hout & _ & Hinc & _).
  unfold emitted, drain. rewrite Hout. simpl.
  now apply (increasing_from_sorted 0).
Qed.

(** The events of the output buffer are those of the first entries of the
    schedule, in the order of the schedule. *)
Lemma emitted_bytes s :
  let out := emitted reserve nNow nFrames s in
  (length out <= length s)%nat
  /\ map bytes out = map snd (take (length out) s).
Proof.
  destruct (drain_loop_inv s [] 0 []) as [new H]; [lia|].
  destruct H as (Hlen & Hout & Hbytes & _).
  unfold emitted, drain. rewrite Hout. simpl. split; assumption.
Qed.

(** Every exit of the drain but [return 0] erases the emitted entries and
    keeps the others. *)
Lemma remaining_after_erase s :
  exit_of reserve nNow nFrames s <> Bumped ->
  remaining reserve nNow nFrames s
  = drop (length (emitted reserve nNow nFrames s)) s.
Proof.
  destruct (drain_loop_inv s [] 0 []) as [new H]; [lia|].
  destruct H as (_ & Hout & _ & _ & _ & Hkeep & _).
  unfold exit_of, remaining, emitted, drain. rewrite Hout. simpl.
  exact Hkeep.
Qed.

(** The exit by [return 0] erases nothing: the emitted entries stay, their
    pointers null. *)
Lemma remaining_after_return s :
  exit_of reserve nNow nFrames s = Bumped ->
  let n := length (emitted reserve nNow nFrames s) in
  remaining reserve nNow nFrames s = map nulled (take n s) ++ drop n s
  /\ (n < length s)%nat.
Proof.
  destruct (drain_loop_inv s [] 0 []) as [new H]; [lia|].
  destruct H as (_ & Hout & _ & _ & _ & _ & Hbump).
  unfold exit_of, remaining, emitted, drain. rewrite Hout. simpl.
  exact Hbump.
Qed.

End DrainFacts.

(** *** Insertion by sendMidiMsg *)

Lemma find_In time s : find time s <> None <-> In time (keys s).
Proof.
  induction s as [|[k v] rest IH]; simpl; [tauto|].
  destruct (Z.eqb_spec k time) as [E|E].
  - split; [now left|discriminate].
  - rewrite IH. split; [now right|]. intros [H|H]; [contradiction|exact H].
Qed.

Lemma find_lookup time v s :
  find time s = Some v -> exists i, s !! i = Some (time, v).
Proof.
  induction s as [|[k w] rest IH]; simpl; [discriminate|].
  destruct (Z.eqb_spec k time) as [E|E].
  - intros [= ->]. subst k. now exists 0%nat.
  - intros H. destruct (IH H) as [i Hi]. now exists (S i).
Qed.

Lemma find_assign_same time pMsg s : find time (assign time pMsg s) = Some pMsg.
Proof.
  induction s as [|[k v] rest IH]; simpl.
  - now rewrite Z.eqb_refl.
  - destruct (Z.ltb_spec time k); simpl; [now rewrite Z.eqb_refl|].
    destruct (Z.eqb_spec time k) as [E|E]; simpl.
    + subst. now rewrite Z.eqb_refl.
    + destruct (Z.eqb_spec k time); [congruence|exact IH].
Qed.

Lemma find_assign_other time time' pMsg s :
  time' <> time -> find time' (assign time pMsg s) = find time' s.
Proof.
  intros Hne. induction s as [|[k v] rest IH]; simpl.
  - destruct (Z.eqb_spec time time'); [congruence|reflexivity].
  - destruct (Z.ltb_spec time k); simpl.
    + destruct (Z.eqb_spec time time'); [congruence|reflexivity].
    + destruct (Z.eqb_spec time k) as [E|E]; simpl.
      * subst k. destruct (Z.eqb_spec time time'); [congruence|reflexivity].
      * now rewrite IH.
Qed.

Lemma assign_keys_Forall (P : Z -> Prop) time pMsg s :
  P time -> Forall P (keys s) -> Forall P (keys (assign time pMsg s)).
Proof.
  intros Ht. induction s as [|[k v] rest IH]; simpl; intros H.
  - now constructor.
  - inversion H as [|? ? Hk Hrest]; subst.
    destruct (Z.ltb_spec time k); simpl; [now repeat constructor|].
    destruct (Z.eqb_spec time k); simpl; constructor; auto.
Qed.

(** Assignment keeps the keys of the map in order. *)
Lemma assign_ordered time pMsg s : ordered s -> ordered (assign time pMsg s).
Proof.
  unfold ordered. induction s as [|[k v] rest IH]; simpl; intros H.
  - repeat constructor.
  - inversion H as [|? ? Hs Hk]; subst.
    destruct (Z.ltb_spec time k) as [Hlt|Hge]; simpl.
    + constructor; [exact H|]. constructor; [exact Hlt|].
      eapply Forall_impl; [exact Hk|]. simpl. intros; lia.
    + destruct (Z.eqb_spec time k) as [E|E]; simpl.
      * exact H.
      * constructor; [now apply IH|].
        apply (assign_keys_Forall (fun x => k < x)); [lia|exact Hk].
Qed.

Lemma length_assign time pMsg s :
  find time s = None -> length (assign time pMsg s) = S (length s).
Proof.
  induction s as [|[k v] rest IH]; simpl; [reflexivity|].
  destruct (Z.eqb_spec k time) as [E|E]; [discriminate|]. intros H.
  destruct (Z.ltb_spec time k); simpl; [reflexivity|].
  destruct (Z.eqb_spec time k); [congruence|]. simpl. now rewrite IH.
Qed.

(** When every slot below [time] is taken, the map has [time] entries at
    least. *)
Lemma taken_below time s :
  0 <= time -> (forall t, 0 <= t < time -> find t s <> None) ->
  time <= Z.of_nat (length s).
Proof.
  intros H0 Htaken.
  pose (l := map Z.of_nat (seq 0 (Z.to_nat time))).
  assert (List.NoDup l) as Hnd.
  { apply Finite.Injective_map_NoDup; [|apply List.seq_NoDup].
    intros x y. apply Nat2Z.inj. }
  assert (incl l (keys s)) as Hincl.
  { intros x Hx. apply in_map_iff in Hx as [i [<- Hi]].
    apply in_seq in Hi. apply find_In. apply Htaken. lia. }
  pose proof (NoDup_incl_length Hnd Hincl) as Hlen.
  unfold l, keys in Hlen. rewrite !length_map, length_seq in Hlen. lia.
Qed.

(** The search of [sendMidiMsg] ends, on the first free slot. *)
Lemma free_slot_from s : forall fuel time,
  Z.of_nat (length s) < 2 ^ 32 ->
  0 <= time -> (forall t, 0 <= t < time -> find t s <> None) ->
  Z.of_nat (length s) < time + Z.of_nat fuel ->
  exists r, free_slot fuel time s = Some r
            /\ time <= r /\ find r s = None
            /\ forall t, 0 <= t < r -> find t s <> None.
Proof.
  induction fuel as [|fuel IH]; intros time Hroom H0 Htaken Hf.
  - pose proof (taken_below time s H0 Htaken). lia.
  - simpl. destruct (find time s) eqn:E.
    + assert (forall t, 0 <= t < time + 1 -> find t s <> None) as Htaken'.
      { intros t Ht. destruct (Z.eq_dec t time) as [->|Hne];
          [congruence|apply Htaken; lia]. }
      pose proof (taken_below (time + 1) s ltac:(lia) Htaken').
      rewrite u32_small by lia.
      destruct (IH (time + 1)) as [r Hr]; try assumption; try lia.
      exists r. intuition lia.
    + exists time. repeat split; [lia|exact E|exact Htaken].
Qed.

Lemma sendMidiMsg_slot pMsg s :
  Z.of_nat (length s) < 2 ^ 32 ->
  exists time,
    sendMidiMsg pMsg s = Some (assign time (Some pMsg) s)
    /\ 0 <= time /\ find time s = None
    /\ forall t, 0 <= t < time -> find t s <> None.
Proof.
  intros Hroom.
  destruct (free_slot_from s (S (length s)) 0 Hroom) as [r Hr];
    [lia|intros; lia|lia|].
  destruct Hr as (Hfree & H0 & Hnone & Htaken).
  exists r. unfold sendMidiMsg. rewrite Hfree. auto.
Qed.

Lemma lookup_map {A B : Type} (f : A -> B) (l : list A) (i : nat) :
  map f l !! i = option_map f (l !! i).
Proof.
  revert i. induction l as [|x rest IH]; intros [|i]; simpl; auto.
Qed.

(** In a strictly increasing list, the later element is the greater. *)
Lemma sorted_lookup (l : list Z) : StronglySorted Z.lt l -> forall i j a b,
  l !! i = Some a -> l !! j = Some b -> (i < j)%nat -> a < b.
Proof.
  induction l as [|x rest IH]; simpl; intros H i j a b Hi Hj Hlt.
  - discriminate.
  - inversion H as [|? ? Hs Hk]; subst.
    destruct j as [|j]; [lia|]. simpl in Hj.
    destruct i as [|i]; simpl in Hi.
    + injection Hi as <-. rewrite List.Forall_forall in Hk. apply Hk.
      apply list_elem_of_In. eapply list_elem_of_lookup_2; eauto.
    + apply (IH Hs i j); auto. lia.
Qed.

(** A strictly increasing list is non-decreasing. *)
Lemma increasing_non_decreasing (l : list Z) :
  StronglySorted Z.lt l -> Sorted Z.le l.
Proof.
  induction 1 as [|x rest Hs IH Hk]; constructor; [exact IH|].
  destruct rest as [|y rest]; constructor.
  inversion Hk; subst. lia.
Qed.

(** In a map, the entry with the smaller key comes first. *)
Lemma ordered_lookup s : ordered s -> forall i j e1 e2,
  s !! i = Some e1 -> s !! j = Some e2 -> (i < j)%nat -> fst e1 < fst e2.
Proof.
  intros Ho i j e1 e2 Hi Hj Hlt.
  apply (sorted_lookup (keys s) Ho i j); [| |exact Hlt];
    unfold keys; rewrite lookup_map; [now rewrite Hi|now rewrite Hj].
Qed.

Lemma ordered_lookup_lt s i j e1 e2 :
  ordered s -> s !! i = Some e1 -> s !! j = Some e2 -> fst e1 < fst e2 ->
  (i < j)%nat.
Proof.
  intros Ho Hi Hj Hlt.
  destruct (Nat.lt_trichotomy i j) as [H|[H|H]]; [exact H| |].
  - subst. rewrite Hi in Hj. injection Hj as <-. lia.
  - pose proof (ordered_lookup s Ho j i e2 e1 Hj Hi H). lia.
Qed.

(** *** Order of emission *)

(** Of two entries of the schedule, the drain emits the earlier first. *)
Lemma emitted_in_schedule_order reserve nNow nFrames s a b t1 t2 m1 m2 :
  nFrames < 2 ^ 32 ->
  s !! a = Some (t1, m1) -> s !! b = Some (t2, m2) -> (a < b)%nat ->
  forall e2, emitted reserve nNow nFrames s !! b = Some e2 ->
  exists e1, emitted reserve nNow nFrames s !! a = Some e1
             /\ bytes e1 = m1 /\ bytes e2 = m2 /\ offset e1 < offset e2.
Proof.
  intros Hf Ha Hb Hab e2 He2.
  pose proof (emitted_increasing reserve nNow nFrames Hf s) as Hinc.
  destruct (emitted_bytes reserve nNow nFrames Hf s) as [Hn Hbytes].
  set (out := emitted reserve nNow nFrames s) in *.
  assert (b < length out)%nat as Hbn by (eapply lookup_lt_Some; eauto).
  destruct (lookup_lt_is_Some_2 out a) as [e1 He1]; [lia|].
  assert (forall k e entry, out !! k = Some e -> s !! k = Some entry ->
            bytes e = snd entry) as Hsame.
  { intros k e entry Hk Hentry.
    assert (map bytes out !! k = map snd (take (length out) s) !! k) as Hx
      by now rewrite Hbytes.
    rewrite !lookup_map, Hk in Hx.
    rewrite lookup_take_lt in Hx by (eapply lookup_lt_Some; eauto).
    rewrite Hentry in Hx. simpl in Hx. congruence. }
  exists e1. split; [exact He1|].
  split; [apply (Hsame a e1 _ He1 Ha)|].
  split; [apply (Hsame b e2 _ He2 Hb)|].
  apply (sorted_lookup _ Hinc a b); [| |exact Hab];
    rewrite lookup_map; [now rewrite He1|now rewrite He2].
Qed.

(** Messages sent one after the other take increasing slots, free in the
    schedule they are sent to, and leave its entries as they were. *)
Lemma sendMidiMsgs_slots : forall msgs s0,
  Z.of_nat (length s0) + Z.of_nat (length msgs) <= 2 ^ 32 ->
  exists s' slots,
    sendMidiMsgs msgs s0 = Some s'
    /\ (ordered s0 -> ordered s')
    /\ Forall2 (fun pMsg time => find time s' = Some (Some pMsg)) msgs slots
    /\ StronglySorted Z.lt slots
    /\ Forall (fun time => 0 <= time /\ find time s0 = None) slots
    /\ (forall time, find time s0 <> None -> find time s' = find time s0).
Proof.
  induction msgs as [|pMsg rest IH]; intros s0 Hroom.
  - exists s0, []. split; [reflexivity|]. split; [tauto|].
    split; [constructor|]. split; [constructor|]. split; [constructor|].
    reflexivity.
  - cbn [length] in Hroom. rewrite Nat2Z.inj_succ in Hroom.
    destruct (sendMidiMsg_slot pMsg s0) as (t1 & Hs1 & H1 & Hfree1 & Htaken1);
      [lia|].
    set (s1 := assign t1 (Some pMsg) s0) in *.
    assert (length s1 = S (length s0)) as Hlen1 by now apply length_assign.
    destruct (IH s1) as (s' & slots & Hs' & Ho & Hall & Hsorted & Hfree & Hkept);
      [lia|].
    exists s', (t1 :: slots).
    split; [cbn [sendMidiMsgs]; rewrite Hs1; exact Hs'|].
    split; [intros Ho0; apply Ho, assign_ordered, Ho0|].
    assert (forall time, 0 <= time -> find time s1 = None ->
              t1 < time /\ find time s0 = None) as Hlater.
    { intros time H0 Hnone.
      assert (time <> t1) as Hne.
      { intros ->. unfold s1 in Hnone. rewrite find_assign_same in Hnone.
        discriminate. }
      unfold s1 in Hnone. rewrite find_assign_other in Hnone by exact Hne.
      split; [|exact Hnone].
      destruct (Z_lt_le_dec t1 time) as [H|H]; [exact H|exfalso].
      apply (Htaken1 time); [lia|exact Hnone]. }
    split.
    { constructor; [|exact Hall].
      rewrite Hkept; unfold s1; rewrite find_assign_same;
        [reflexivity|discriminate]. }
    split.
    { constructor; [exact Hsorted|].
      eapply Forall_impl; [exact Hfree|]. simpl.
      intros time [H0 Hnone]. now apply Hlater. }
    split.
    { constructor; [split; assumption|].
      eapply Forall_impl; [exact Hfree|]. simpl.
      intros time [H0 Hnone]. split; [exact H0|]. now apply Hlater. }
    intros time Htime.
    assert (time <> t1) as Hne by (intros ->; contradiction).
    rewrite Hkept; unfold s1; rewrite find_assign_other by exact Hne;
      [reflexivity|exact Htime].
Qed.

(** C1, as the code has it by design: in every cycle, for every schedule, the
    offsets at which the drain puts events into the output buffer increase
    strictly, so they never decrease, and the messages leave in the order of
    their frames in the schedule, a map with one message for each frame.
    Messages that [sendMidiMsg] inserts with no drain between the insertions
    take increasing frames: when the drain emits the later of two of them it
    has emitted the earlier, at an earlier offset. *)
Theorem drain_emits_in_order :
  (forall reserve nNow nFrames s, nFrames < 2 ^ 32 ->
     let out := emitted reserve nNow nFrames s in
     Sorted Z.le (map offset out)
     /\ StronglySorted Z.lt (map offset out)
     /\ map bytes out = map snd (take (length out) s))
  /\ (forall s0 msgs, ordered s0 ->
      Z.of_nat (length s0) + Z.of_nat (length msgs) <= 2 ^ 32 ->
      exists s',
        sendMidiMsgs msgs s0 = Some s' /\ ordered s'
        /\ forall i j m1 m2,
             (i < j)%nat -> msgs !! i = Some m1 -> msgs !! j = Some m2 ->
             exists a b t1 t2,
               s' !! a = Some (t1, Some m1) /\ s' !! b = Some (t2, Some m2)
               /\ t1 < t2 /\ (a < b)%nat
               /\ forall reserve nNow nFrames, nFrames < 2 ^ 32 ->
                  let out := emitted reserve nNow nFrames s' in
                  forall e2, out !! b = Some e2 ->
                  exists e1, out !! a = Some e1
                             /\ bytes e1 = Some m1 /\ bytes e2 = Some m2
                             /\ offset e1 < offset e2).
Proof.
  split.
  - intros reserve nNow nFrames s Hf. cbv zeta.
    pose proof (emitted_increasing reserve nNow nFrames Hf s) as Hinc.
    repeat split.
    + now apply increasing_non_decreasing.
    + exact Hinc.
    + apply (emitted_bytes reserve nNow nFrames Hf s).
  - intros s0 msgs Ho0 Hroom.
    destruct (sendMidiMsgs_slots msgs s0 Hroom)
      as (s' & slots & Hs' & Ho & Hall & Hsorted & _ & _).
    exists s'. split; [exact Hs'|]. split; [now apply Ho|].
    intros i j m1 m2 Hij Hi Hj.
    destruct (Forall2_lookup_l _ _ _ _ _ Hall Hi) as (t1 & Ht1 & Hf1).
    destruct (Forall2_lookup_l _ _ _ _ _ Hall Hj) as (t2 & Ht2 & Hf2).
    assert (t1 < t2) as Hlt by (apply (sorted_lookup slots Hsorted i j); auto).
    destruct (find_lookup _ _ _ Hf1) as [a Ha].
    destruct (find_lookup _ _ _ Hf2) as [b Hb].
    assert (a < b)%nat as Hab
      by (apply (ordered_lookup_lt s' a b _ _ (Ho Ho0) Ha Hb); exact Hlt).
    exists a, b, t1, t2.
    split; [exact Ha|]. split; [exact Hb|]. split; [exact Hlt|].
    split; [exact Hab|].
    intros reserve nNow nFrames Hf. cbv zeta. intros e2 He2.
    apply (emitted_in_schedule_order reserve nNow nFrames s' a b t1 t2
             (Some m1) (Some m2) Hf Ha Hb Hab e2 He2).
Qed.

(** C1 as stated fails across a drain.  [msg_a] and [msg_b] are sent to the
    empty schedule and take the frames 0 and 1; a drain whose output buffer has
    room for one event emits [msg_a] and erases its entry; [msg_c], sent after
    that, takes the frame 0 that the drain has freed; the next drain emits
    [msg_c] before [msg_b], which was inserted before it. *)
Lemma drain_frees_slot_for_later_message :
  exists s2 s3 s4,
    sendMidiMsgs [Scenario.msg_a; Scenario.msg_b] [] = Some s2
    /\ drain Scenario.single 100 256 s2
       = (s3, [mkEmission 0 (Some Scenario.msg_a)], ReserveFailed)
    /\ s3 = [(1, Some Scenario.msg_b)]
    /\ sendMidiMsg Scenario.msg_c s3 = Some s4
    /\ emitted Scenario.roomy 356 256 s4
       = [mkEmission 0 (Some Scenario.msg_c);
          mkEmission 1 (Some Scenario.msg_b)].
Proof.
  exists [(0, Some Scenario.msg_a); (1, Some Scenario.msg_b)],
    [(1, Some Scenario.msg_b)],
    [(0, Some Scenario.msg_c); (1, Some Scenario.msg_b)].
  vm_compute. repeat split.
Qed.

(** Two messages sent to the crowded schedule, and the cycle that starts at
    frame 0 with room for both. *)
Lemma sendMidiMsg_twice :
  let s1 := sendMidiMsg Scenario.msg_b [(0, Some Scenario.msg_a)] in
  let s2 := from_option (sendMidiMsg Scenario.msg_c) None s1 in
  s2 = Some [(0, Some Scenario.msg_a); (1, Some Scenario.msg_b);
             (2, Some Scenario.msg_c)]
  /\ emitted Scenario.roomy 0 256 (default [] s2)
     = [mkEmission 0 (Some Scenario.msg_a); mkEmission 1 (Some Scenario.msg_b);
        mkEmission 2 (Some Scenario.msg_c)].
Proof. vm_compute. split; reflexivity. Qed.

(** *** Entries left by the drain *)

(** C9: in a period of two frames that starts at frame 100, with two late
    entries and one due at frame 100, the drain emits the two late entries at
    offsets 0 and 1, bumps the third to offset 2 and leaves by [return 0]:
    the third entry stays queued, and so do the two emitted entries, their
    messages deleted and their pointers null. *)
Theorem drain_return_keeps_emitted :
  let r := drain Scenario.roomy 100 2 Scenario.crowded in
  snd r = Bumped
  /\ snd (fst r)
     = [mkEmission 0 (Some Scenario.msg_a); mkEmission 1 (Some Scenario.msg_b)]
  /\ fst (fst r) = [(98, None); (99, None); (100, Some Scenario.msg_c)].
Proof. vm_compute. repeat split. Qed.

(** In the next period the two stale entries take the two offsets again, as
    events without bytes, and the third entry is bumped again. *)
Lemma drain_return_stalls :
  let s := remaining Scenario.roomy 100 2 Scenario.crowded in
  drain Scenario.roomy 102 2 s
  = (s, [mkEmission 0 None; mkEmission 1 None], Bumped).
Proof. vm_compute. reflexivity. Qed.

(** On a reservation failure the emitted entry is erased and the others stay. *)
Lemma drain_reserve_failure :
  drain Scenario.single 98 256 Scenario.crowded
  = ([(99, Some Scenario.msg_b); (100, Some Scenario.msg_c)],
     [mkEmission 0 (Some Scenario.msg_a)], ReserveFailed).
Proof. vm_compute. reflexivity. Qed.

End ScheduleFacts.

(** ** The timebase driver *)

Module TransportFacts.

Import Transport.

Section PulseFacts.

Variable rnd : Q -> Q.
Variable pm_clock :
  Z -> Schedule.schedule -> bool -> Q -> Schedule.schedule * bool.

(** C5, as the code has it by design: a clock pulse taken with the clock
    within 0..23 advances the clock modulo 24 and asserts the sync pulse
    exactly on clock 0 of beat 1; when the clock does not wrap, beat and bar
    stay; when it wraps, the beat goes up by one, and past the beats per bar
    it goes back to 1, where the bar goes up by one if the song is playing and
    stays otherwise. *)
Theorem clock_pulse_advance st nFramesInPeriod frame nRemainingFrames :
  0 <= g_nClock st <= 23 ->
  let r := clock_pulse rnd pm_clock st nFramesInPeriod frame nRemainingFrames in
  let st' := fst (fst r) in
  let nBeat := u32 (g_nBeat st + 1) in
  g_nClock st' = (g_nClock st + 1) mod 24
  /\ (snd r = true <-> g_nClock st = 0 /\ g_nBeat st = 1)
  /\ (g_nClock st' <> 0 ->
      g_nBeat st' = g_nBeat st /\ g_nBar st' = g_nBar st)
  /\ (g_nClock st' = 0 -> (g_fBeatsPerBar st < inject_Z nBeat)%Q ->
      g_nBeat st' = 1
      /\ g_nBar st'
         = match g_nSongStatus st' with
           | PLAYING => u32 (g_nBar st + 1)
           | _ => g_nBar st
           end)
  /\ (g_nClock st' = 0 -> ~ (g_fBeatsPerBar st < inject_Z nBeat)%Q ->
      g_nBeat st' = nBeat /\ g_nBar st' = g_nBar st).
Proof.
  intros Hclock. cbv zeta. unfold clock_pulse.
  destruct (pm_clock _ _ _ _) as [mSchedule bPlaying]. simpl.
  rewrite (u8_small (g_nClock st + 1)) by lia.
  assert (((g_nClock st =? 0) && (g_nBeat st =? 1) = true)
          <-> g_nClock st = 0 /\ g_nBeat st = 1) as Hsync.
  { rewrite andb_true_iff, !Z.eqb_eq. reflexivity. }
  destruct (Z.gtb_spec (g_nClock st + 1) 23) as [Hwrap|Hwrap].
  - assert (g_nClock st = 23) as E by lia. rewrite E in *. simpl andb.
    repeat apply conj; try reflexivity; try exact Hsync; try (intros; lia).
    + intros _ Hbar. apply Qlt_bool_iff in Hbar. rewrite Hbar.
      split; [reflexivity|].
      now destruct (g_nSongStatus st).
    + intros _ Hbar.
      destruct (Qlt_bool _ _) eqn:Hb;
        [apply Qlt_bool_iff in Hb; contradiction|].
      split; reflexivity.
  - simpl andb. rewrite Z.mod_small by lia.
    repeat apply conj; try reflexivity; try exact Hsync; try (intros; lia).
Qed.

End PulseFacts.

(** The pulse on the last clock of a bar, the song stopped. *)
Lemma clock_pulse_advance_witness :
  let st := Scenario.last_clock_of_bar in
  let r := clock_pulse Scenario.exact Scenario.idle_clock st 256 0 256 in
  0 <= g_nClock st <= 23
  /\ g_nClock (fst (fst r)) = (g_nClock st + 1) mod 24.
Proof.
  split; [simpl; lia|].
  apply (clock_pulse_advance Scenario.exact Scenario.idle_clock
           Scenario.last_clock_of_bar 256 0 256).
  simpl. lia.
Defined.

(** C5 as stated fails when the song is not playing: on the last clock of
    the last beat of bar 1 the beat goes back to 1 and the bar stays 1. *)
Lemma clock_pulse_bar_stays :
  let st := Scenario.last_clock_of_bar in
  let st' := fst (fst (clock_pulse Scenario.exact Scenario.idle_clock st 256 0 256)) in
  g_nClock st' = 0 /\ g_nBeat st' = 1
  /\ g_nBar st' = g_nBar st /\ g_nBar st' <> g_nBar st + 1.
Proof. vm_compute. repeat split. discriminate. Qed.

(** *** Frames per clock *)

Local Open Scope Q_scope.

Lemma inject_Z_pos (D : Z) : (0 < D)%Z -> 0 < inject_Z D.
Proof. intros H. change 0 with (inject_Z 0). now rewrite <- Zlt_Qlt. Qed.

Lemma rounds_nonneg rnd x :
  rounds rnd -> 0 <= x -> x * (1 - eps) <= rnd x /\ rnd x <= x * (1 + eps).
Proof.
  intros Hr Hx. pose proof (Hr x) as H.
  rewrite (Qabs_pos x Hx) in H.
  apply Qabs_Qle_condition in H. destruct H as [H1 H2].
  split; lra.
Qed.

(** Exact arithmetic rounds. *)
Lemma exact_rounds : rounds Scenario.exact.
Proof.
  intros x. unfold Scenario.exact.
  assert (x - x == 0) as -> by ring.
  change (Qabs 0) with 0. unfold eps.
  pose proof (Qabs_nonneg x). lra.
Qed.

(** A quotient by a rounded divisor. *)
Lemma quotient_bounds a b b' q E :
  0 <= a -> 0 < b ->
  b * (1 - eps) <= b' -> b' <= b * (1 + eps) ->
  q * b' == a -> E * b == 80 * a ->
  0 <= q /\ 0 <= E /\ 80 * q * (1 - eps) <= E /\ E <= 80 * q * (1 + eps).
Proof.
  intros Ha Hb Hb1 Hb2 Hq HE. unfold eps in *.
  assert (0 < b') as Hb' by lra.
  assert (0 <= q) as Hq0.
  { destruct (Qlt_le_dec q 0) as [H|H]; [|exact H]. exfalso. nra. }
  assert (0 <= E) as HE0.
  { destruct (Qlt_le_dec E 0) as [H|H]; [|exact H]. exfalso. nra. }
  assert (q * (b * (1 - (1 # 9007199254740992))) <= q * b') as H1 by nra.
  assert (q * b' <= q * (b * (1 + (1 # 9007199254740992)))) as H2 by nra.
  repeat split; try assumption.
  - destruct (Qlt_le_dec E (80 * q * (1 - (1 # 9007199254740992)))) as [H|H];
      [exfalso|exact H]. nra.
  - destruct (Qlt_le_dec (80 * q * (1 + (1 # 9007199254740992))) E) as [H|H];
      [exfalso|exact H]. nra.
Qed.

(** The three rounded operations of [getFramesPerClock] together. *)
Lemma rounded_chain a b q q' r' E :
  0 <= q -> 0 <= E -> a <= 4294967295 -> 1920 <= b ->
  80 * q * (1 - eps) <= E -> E <= 80 * q * (1 + eps) ->
  q * (1 - eps) <= q' -> q' <= q * (1 + eps) ->
  (q' * 80) * (1 - eps) <= r' -> r' <= (q' * 80) * (1 + eps) ->
  E * b == 80 * a ->
  E <= 178956971 /\ E * (1 - 4 * eps) <= r' /\ r' <= E * (1 + 4 * eps).
Proof.
  intros Hq0 HE0 Ha Hb Hlo Hhi Hq1 Hq2 Hr1 Hr2 HE. unfold eps in *.
  assert (1920 * E <= b * E) as Hscale
    by (apply Qmult_le_compat_r; assumption).
  assert (E <= 178956971) as HEmax by lra.
  repeat split; try assumption; lra.
Qed.

(** The truncation of a value that close to the quotient of two integers is
    within one of the quotient. *)
Lemma floor_within (A D : Z) (r' E : Q) :
  (0 <= A < 2 ^ 32)%Z -> (0 < D)%Z ->
  E * inject_Z D == inject_Z A ->
  E * (1 - 4 * eps) <= r' -> r' <= E * (1 + 4 * eps) ->
  0 <= E -> E <= 178956971 ->
  (0 <= Qfloor r' < 2 ^ 32)%Z /\ Qabs (inject_Z (Qfloor r') - E) <= 1.
Proof.
  intros HA HD HE Hlo Hhi HE0 HEmax. unfold eps in *.
  pose proof (Qfloor_le r') as Hfl.
  pose proof (Qlt_floor r') as Hfu.
  assert (0 <= r') as Hr0 by nra.
  assert (0 <= Qfloor r')%Z as Hn0.
  { change 0%Z with (Qfloor 0). now apply Qfloor_resp_le. }
  assert (inject_Z (Qfloor r') <= inject_Z 178956972) as Hnmax
    by (change (inject_Z 178956972) with 178956972; nra).
  rewrite <- Zle_Qle in Hnmax.
  split; [lia|].
  apply Qabs_Qle_condition. split; [|nra].
  pose proof (inject_Z_pos D HD) as HD'.
  assert (inject_Z A - 1 < inject_Z ((Qfloor r' + 1) * D)) as Hint.
  { rewrite inject_Z_mult.
    assert (inject_Z A <= 4294967295) as HA'.
    { change 4294967295 with (inject_Z 4294967295). rewrite <- Zle_Qle. lia. }
    nra. }
  assert (A <= (Qfloor r' + 1) * D)%Z as Hz.
  { change 1 with (inject_Z 1) in Hint.
    assert (inject_Z (A - 1) < inject_Z ((Qfloor r' + 1) * D)) as Hint'.
    { unfold Z.sub. rewrite inject_Z_plus. exact Hint. }
    rewrite <- Zlt_Qlt in Hint'. lia. }
  rewrite Zle_Qle, inject_Z_mult, inject_Z_plus in Hz.
  change (inject_Z 1) with 1 in Hz.
  nra.
Qed.

Lemma ticks_per_clock : g_dTicksPerClock == 80.
Proof. reflexivity. Qed.

(** [getFramesPerClock] against the frames per clock of the specification. *)
Lemma getFramesPerClock_bounds rnd nSampleRate tempo :
  rounds rnd ->
  (0 < tempo)%Z -> (0 <= nSampleRate)%Z -> (60 * nSampleRate < 2 ^ 32)%Z ->
  let E := frames_per_clock nSampleRate tempo in
  let r' := getFramesPerClock rnd nSampleRate (inject_Z tempo) in
  0 <= E /\ E <= 178956971
  /\ E * (1 - 4 * eps) <= r' /\ r' <= E * (1 + 4 * eps)
  /\ E * inject_Z (tempo * 24) == inject_Z (60 * nSampleRate).
Proof.
  intros Hr Ht Hs Hs'. cbv zeta.
  unfold getFramesPerClock, getFramesPerTick.
  rewrite (u32_small (60 * nSampleRate)) by lia.
  set (a := inject_Z (60 * nSampleRate)).
  set (b := inject_Z tempo * g_dTicksPerBeat).
  set (b' := rnd b).
  set (q := a / b').
  set (q' := rnd q).
  set (E := frames_per_clock nSampleRate tempo).
  pose proof (inject_Z_pos tempo Ht) as Ht'.
  assert (1 <= inject_Z tempo) as Ht1.
  { change 1 with (inject_Z 1). rewrite <- Zle_Qle. lia. }
  assert (0 <= a) as Ha.
  { unfold a. change 0 with (inject_Z 0). rewrite <- Zle_Qle. lia. }
  assert (a <= 4294967295) as Ha'.
  { unfold a. change 4294967295 with (inject_Z 4294967295).
    rewrite <- Zle_Qle. lia. }
  assert (1920 <= b) as Hb by (unfold b, g_dTicksPerBeat; lra).
  destruct (rounds_nonneg rnd b Hr) as [Hb1 Hb2]; [lra|].
  fold b' in Hb1, Hb2.
  assert (0 < b') as Hb' by (unfold eps in *; lra).
  assert (q * b' == a) as Hq.
  { unfold q. field. intros Hz. rewrite Hz in Hb'. lra. }
  assert (E * inject_Z (tempo * 24) == a) as HD.
  { unfold E, frames_per_clock, a. rewrite !inject_Z_mult.
    change (inject_Z 24) with 24. change (inject_Z 60) with 60.
    field. lra. }
  assert (E * b == 80 * a) as HE.
  { rewrite <- HD. unfold b, g_dTicksPerBeat. rewrite inject_Z_mult.
    change (inject_Z 24) with 24. ring. }
  destruct (quotient_bounds a b b' q E) as (Hq0 & HE0 & Hlo & Hhi);
    try assumption; [lra|].
  destruct (rounds_nonneg rnd q Hr Hq0) as [Hq1 Hq2]. fold q' in Hq1, Hq2.
  assert (0 <= q' * g_dTicksPerClock) as Hr0.
  { rewrite ticks_per_clock. unfold eps in *. nra. }
  destruct (rounds_nonneg rnd _ Hr Hr0) as [Hr1 Hr2].
  rewrite ticks_per_clock in Hr1 at 1. rewrite ticks_per_clock in Hr2 at 2.
  destruct (rounded_chain a b q q' (rnd (q' * g_dTicksPerClock)) E)
    as (HEmax & Hl & Hu); try assumption.
  repeat split; assumption.
Qed.

Section TempoFacts.

Variable rnd : Q -> Q.
Variable pm_clock :
  Z -> Schedule.schedule -> bool -> Q -> Schedule.schedule * bool.
Hypothesis rnd_rounds : rounds rnd.

(** C6: at a tempo event of [tempo] beats per minute the driver sets its
    frames per clock to [getFramesPerClock], which is within one frame of
    (60 x sample rate) / (tempo x 24), 1920 ticks per beat and 24 clocks per
    beat cancelling; the clock pulses after it keep that value and re-arm the
    frames to the next clock with its truncation, within one frame too. *)
Theorem frames_per_clock_after_tempo_event st ev next
  nFramesInPeriod frame nRemainingFrames :
  type ev = TIMEBASE_TYPE_TEMPO ->
  (0 < value ev)%Z ->
  (0 <= g_nSampleRate st)%Z -> (60 * g_nSampleRate st < 2 ^ 32)%Z ->
  let st1 := timebase_event rnd st ev next in
  let st2 :=
    fst (fst (clock_pulse rnd pm_clock st1
                nFramesInPeriod frame nRemainingFrames)) in
  let E := frames_per_clock (g_nSampleRate st) (value ev) in
  g_dTempo st1 = inject_Z (value ev)
  /\ Qabs (g_dFramesPerClock st1 - E) < 1
  /\ g_dFramesPerClock st2 = g_dFramesPerClock st1
  /\ Qabs (inject_Z (g_nFramesToNextClock st2) - E) <= 1.
Proof.
  intros Htype Ht Hs Hs'. cbv zeta.
  destruct (getFramesPerClock_bounds rnd (g_nSampleRate st) (value ev)
              rnd_rounds Ht Hs Hs') as (HE0 & HEmax & Hlo & Hhi & HD).
  unfold timebase_event. rewrite Htype.
  unfold clock_pulse.
  cbn [g_dTempo g_dFramesPerClock g_nFramesToNextClock g_nSampleRate
       g_mSchedule g_nTransportStartFrame].
  destruct (pm_clock _ _ _ _) as [mSchedule bPlaying].
  cbn [fst snd g_dTempo g_dFramesPerClock g_nFramesToNextClock].
  repeat split.
  - apply Qabs_Qlt_condition. unfold eps in *. split; nra.
  - destruct (floor_within (60 * g_nSampleRate st) (value ev * 24)
                (getFramesPerClock rnd (g_nSampleRate st) (inject_Z (value ev)))
                (frames_per_clock (g_nSampleRate st) (value ev)))
      as [Hrange Hwithin]; try assumption; try lia.
    unfold float_to_u32. rewrite u32_small by exact Hrange. exact Hwithin.
Qed.

End TempoFacts.

(** Scenario S2 at its change of tempo: 60 beats per minute at 48000 frames
    per second give 2000 frames per clock. *)
Lemma frames_per_clock_after_tempo_event_witness :
  let st1 := timebase_event Scenario.exact Scenario.last_clock_of_bar
               Scenario.tempo_60 [] in
  let st2 :=
    fst (fst (clock_pulse Scenario.exact Scenario.idle_clock st1 256 0 256)) in
  let E := frames_per_clock 48000 60 in
  E == 2000
  /\ (g_dTempo st1 = inject_Z 60
      /\ Qabs (g_dFramesPerClock st1 - E) < 1
      /\ g_dFramesPerClock st2 = g_dFramesPerClock st1
      /\ Qabs (inject_Z (g_nFramesToNextClock st2) - E) <= 1).
Proof.
  split; [reflexivity|].
  apply (frames_per_clock_after_tempo_event Scenario.exact Scenario.idle_clock
           exact_rounds Scenario.last_clock_of_bar Scenario.tempo_60 []
           256%Z 0%Z 256%Z).
  - reflexivity.
  - simpl. lia.
  - simpl. lia.
  - simpl. lia.
Defined.

(** A change of sample rate recomputes the frames per clock for the tempo in
    force. *)
Lemma frames_per_clock_after_rate_change rnd st nFrames tempo :
  rounds rnd -> g_dTempo st = inject_Z tempo ->
  (0 < tempo)%Z -> (0 <= nFrames)%Z -> (60 * nFrames < 2 ^ 32)%Z ->
  Qabs (g_dFramesPerClock (onJackSampleRateChange rnd st nFrames)
        - frames_per_clock nFrames tempo) < 1.
Proof.
  intros Hr Htempo Ht Hs Hs'.
  destruct (getFramesPerClock_bounds rnd nFrames tempo Hr Ht Hs Hs')
    as (HE0 & HEmax & Hlo & Hhi & _).
  unfold onJackSampleRateChange. cbn [g_dFramesPerClock]. rewrite Htempo.
  apply Qabs_Qlt_condition. unfold eps in *. split; nra.
Qed.

(** The loop over the due events runs the body on an event of the current
    bar. *)
Lemma tempo_event_processed :
  let st := process_timebase_events Scenario.exact
              (timebase_event Scenario.exact Scenario.last_clock_of_bar
                 (mkTimebaseEvent 0 0 TIMEBASE_TYPE_ANY 0) [Scenario.tempo_60]) in
  g_dTempo st == 60 /\ g_dFramesPerClock st == 2000
  /\ g_pNextTimebaseEvent st = [].
Proof. vm_compute. repeat split. Qed.

(** [transportSetTempo] sets the tempo and leaves the frames per clock. *)
Lemma transportSetTempo_frames_per_clock st tempo :
  g_dTempo (transportSetTempo st tempo) = inject_Z tempo
  /\ g_dFramesPerClock (transportSetTempo st tempo) = g_dFramesPerClock st.
Proof. split; reflexivity. Qed.

End TransportFacts.

(** ** Patterns: order, queries and round trips *)

Module PatternMore.

Import Pattern PatternFacts.

(** *** Order of the events *)

Lemma vector_insert_Forall (P : StepEvent -> Prop) i x v :
  Forall P (vector_insert i x v) <-> P x /\ Forall P v.
Proof.
  unfold vector_insert. rewrite Forall_app, Forall_cons.
  rewrite <- (take_drop i v) at 3. rewrite Forall_app. tauto.
Qed.










(** *** Adding and reading back *)

(** When the new event has a length for the code, it evicts every stored
    event of its own position, command and first value. *)
Lemma evicted_same_key position command value1 duration ev :
  has_length position duration ->
  getPosition ev = position -> getCommand ev = command ->
  getValue1start ev = value1 ->
  evicted position command value1 duration ev = true.
Proof.
  intros Hd Hp Hc Hv. unfold evicted, bOverlap. cbv zeta.
  rewrite Hp, Hc, Hv, !Z.eqb_refl, Z.leb_refl, !andb_true_r.
  unfold has_length in Hd. rewrite Hd. reflexivity.
Qed.

Lemma filter_all {A} (f : A -> bool) v :
  Forall (fun x => f x = true) v -> List.filter f v = v.
Proof.
  induction 1 as [|x rest Hx _ IH]; simpl; [reflexivity|].
  now rewrite Hx, IH.
Qed.

Lemma filter_kept_all f (v : list StepEvent) :
  Forall (fun x => f x = true) (List.filter f v).
Proof.
  apply List.Forall_forall. intros x Hx. now apply filter_In in Hx.
Qed.

(** X2: adding the same note twice is adding it once, for a note that has a
    length for the code: when the [float] sum of its step and its duration is
    greater than its step, a second [addNote] with the arguments of the first
    returns what the first returned and the pattern that the first left. *)
Theorem addNote_idempotent p step note velocity duration :
  has_length step duration ->
  let p1 := snd (addNote p step note velocity duration) in
  addNote p1 step note velocity duration
  = addNote p step note velocity duration.
Proof.
  intros Hd. cbv zeta. unfold addNote.
  destruct ((getSteps p <=? step) || (note >? 127) || (velocity >? 127)) eqn:G;
    cbn [snd]; [now rewrite G|].
  pose proof (addEvent_events p step MIDI_NOTE_ON note velocity duration) as E1.
  cbv zeta in E1. rewrite E1. cbn [fst]. rewrite getSteps_with_events, G.
  f_equal.
  set (v := List.filter (kept step MIDI_NOTE_ON note duration) (m_vEvents p)).
  set (new := newStepEvent step MIDI_NOTE_ON note velocity duration).
  set (p1 := with_events p _).
  pose proof (addEvent_events p1 step MIDI_NOTE_ON note velocity duration) as E2.
  cbv zeta in E2. rewrite E2. cbn [fst].
  assert (List.filter (kept step MIDI_NOTE_ON note duration)
            (take (insert_index v step) v ++ new :: drop (insert_index v step) v)
          = v) as Hf.
  { rewrite List.filter_app. simpl. unfold kept at 2.
    rewrite (evicted_same_key step MIDI_NOTE_ON note duration new Hd)
      by reflexivity.
    simpl. rewrite <- List.filter_app, take_drop.
    apply filter_all. apply filter_kept_all. }
  replace (m_vEvents p1)
    with (take (insert_index v step) v ++ new :: drop (insert_index v step) v)
    by reflexivity.
  rewrite Hf. unfold p1. now destruct p.
Qed.

Lemma addNote_idempotent_witness :
  let p1 := snd (addNote Scenario.chord_pattern 2 64 100 (f32_of_Z 1)) in
  addNote p1 2 64 100 (f32_of_Z 1)
  = addNote Scenario.chord_pattern 2 64 100 (f32_of_Z 1).
Proof.
  apply (addNote_idempotent Scenario.chord_pattern 2 64 100 (f32_of_Z 1)).
  reflexivity.
Defined.


Lemma is_note_evicted step note duration ev :
  has_length step duration -> is_note step note ev = true ->
  evicted step MIDI_NOTE_ON note duration ev = true.
Proof.
  unfold is_note. rewrite !andb_true_iff, !Z.eqb_eq. intros Hd [[Hp Hc] Hv].
  now apply evicted_same_key.
Qed.

Lemma kept_no_note step note duration v :
  has_length step duration ->
  Forall (fun ev => is_note step note ev = false)
    (List.filter (kept step MIDI_NOTE_ON note duration) v).
Proof.
  intros Hd. apply List.Forall_forall. intros ev Hev.
  apply filter_In in Hev as [_ Hk]. unfold kept in Hk.
  apply negb_true_iff in Hk.
  destruct (is_note step note ev) eqn:E; [|reflexivity].
  rewrite (is_note_evicted step note duration ev Hd E) in Hk. discriminate.
Qed.

Lemma find_velocity_skip step note l1 l2 :
  Forall (fun ev => is_note step note ev = false) l1 ->
  find_velocity (l1 ++ l2) step note = find_velocity l2 step note.
Proof.
  induction 1 as [|ev rest Hev _ IH]; simpl; [reflexivity|].
  unfold is_note in Hev. now rewrite Hev.
Qed.

Lemma find_duration_skip step note l1 l2 :
  Forall (fun ev => is_note step note ev = false) l1 ->
  find_duration (l1 ++ l2) step note = find_duration l2 step note.
Proof.
  induction 1 as [|ev rest Hev _ IH]; simpl; [reflexivity|].
  unfold is_note in Hev.
  destruct (getPosition ev =? step), (getCommand ev =? MIDI_NOTE_ON),
    (getValue1start ev =? note); simpl in *; try discriminate; exact IH.
Qed.

Lemma delete_first_skip step note l1 l2 :
  Forall (fun ev => is_note step note ev = false) l1 ->
  delete_first (l1 ++ l2) step MIDI_NOTE_ON note
  = l1 ++ delete_first l2 step MIDI_NOTE_ON note.
Proof.
  induction 1 as [|ev rest Hev _ IH]; simpl; [reflexivity|].
  unfold is_note in Hev. now rewrite Hev, IH.
Qed.

(** The events of a pattern after a successful [addNote]. *)
Lemma addNote_events p step note velocity duration p' :
  addNote p step note velocity duration = (true, p') ->
  let v := List.filter (kept step MIDI_NOTE_ON note duration) (m_vEvents p) in
  p' = with_events p
         (take (insert_index v step) v
          ++ newStepEvent step MIDI_NOTE_ON note velocity duration
             :: drop (insert_index v step) v)
  /\ step < getSteps p.
Proof.
  unfold addNote. destruct (_ || _) eqn:G; [discriminate|].
  intros H. apply (f_equal snd) in H. cbn [snd] in H. subst p'. cbv zeta.
  pose proof (addEvent_events p step MIDI_NOTE_ON note velocity duration) as E.
  cbv zeta in E. rewrite E. split; [reflexivity|].
  rewrite !orb_false_iff in G. destruct G as [[G _] _]. lia.
Qed.

(** X3: a note that has a length for the code reads back as it was added.
    After a successful [addNote] whose [float] sum of step and duration is
    greater than the step, [getNoteVelocity] and [getNoteDuration] at its step
    and pitch return its velocity and its duration. *)
Theorem addNote_read_back p step note velocity duration p' :
  has_length step duration ->
  addNote p step note velocity duration = (true, p') ->
  getNoteVelocity p' step note = velocity
  /\ getNoteDuration p' step note = duration.
Proof.
  intros Hd Hadd. destruct (addNote_events _ _ _ _ _ _ Hadd) as [-> Hstep].
  unfold getNoteVelocity, getNoteDuration.
  rewrite getSteps_with_events. cbn [m_vEvents with_events].
  destruct (Z.leb_spec (getSteps p) step); [lia|].
  rewrite find_velocity_skip, find_duration_skip
    by (apply Forall_take, kept_no_note, Hd).
  simpl. rewrite !Z.eqb_refl. simpl. split; reflexivity.
Qed.

Lemma addNote_read_back_witness :
  getNoteVelocity (snd (addNote Scenario.chord_pattern 2 64 100 (f32_of_Z 1))) 2 64 = 100
  /\ getNoteDuration (snd (addNote Scenario.chord_pattern 2 64 100 (f32_of_Z 1))) 2 64
     = f32_of_Z 1.
Proof.
  apply (addNote_read_back Scenario.chord_pattern 2 64 100 (f32_of_Z 1)); reflexivity.
Defined.

(** Without a length for the code the new note does not evict its like: a
    second note of 2^-25 steps on step 1 leaves the first in place, before
    it, and the velocity read back is that of the first. *)
Lemma addNote_without_length :
  let p1 := snd (addNote Scenario.empty_pattern 1 60 80 Scenario.tiny) in
  let p2 := snd (addNote p1 1 60 100 Scenario.tiny) in
  float_value Scenario.tiny = Some (1 # 33554432)%Q
  /\ ~ has_length 1 Scenario.tiny
  /\ m_vEvents p2
     = [newStepEvent 1 MIDI_NOTE_ON 60 80 Scenario.tiny;
        newStepEvent 1 MIDI_NOTE_ON 60 100 Scenario.tiny]
  /\ getNoteVelocity p2 1 60 = 80.
Proof.
  split; [reflexivity|].
  split; [intros H; vm_compute in H; discriminate|].
  vm_compute. split; reflexivity.
Qed.

(** The ends are compared as the [float] sums the code computes.  A stored
    note at step 0 of 3.2 steps (as a [float]) ends, in exact arithmetic,
    after a new note at step 3 of 0.2 steps; the two [float] sums are equal,
    and [addNote] evicts the stored note. *)
Lemma addNote_rounded_ends :
  let long := f32_div (f32_of_Z 16) (f32_of_Z 5) in
  let short := f32_div (f32_of_Z 1) (f32_of_Z 5) in
  let p :=
    with_events Scenario.empty_pattern
      [newStepEvent 0 MIDI_NOTE_ON 60 80 long] in
  float_value long = Some (13421773 # 4194304)%Q
  /\ float_value short = Some (13421773 # 67108864)%Q
  /\ (3 + (13421773 # 67108864) < 0 + (13421773 # 4194304))%Q
  /\ float_end 0 long = float_end 3 short
  /\ m_vEvents (snd (addNote p 3 60 100 short))
     = [newStepEvent 3 MIDI_NOTE_ON 60 100 short].
Proof.
  split; [reflexivity|]. split; [reflexivity|]. split; [reflexivity|].
  split; reflexivity.
Qed.

(** X4: [removeNote] undoes [addNote], up to the notes that [addNote] evicted.
    After a successful [addNote] of a note that has a length for the code (the
    [float] sum of its step and its duration is greater than its step),
    removing the note leaves the events of the first pattern that the test of
    [addEvent] did not evict, and the first pattern itself when it evicted
    none. *)
Theorem removeNote_addNote p step note velocity duration p' :
  has_length step duration ->
  addNote p step note velocity duration = (true, p') ->
  removeNote p' step note
  = with_events p
      (List.filter (kept step MIDI_NOTE_ON note duration) (m_vEvents p))
  /\ (Forall (fun ev => evicted step MIDI_NOTE_ON note duration ev = false)
        (m_vEvents p) ->
      removeNote p' step note = p).
Proof.
  intros Hd Hadd. destruct (addNote_events _ _ _ _ _ _ Hadd) as [-> Hstep].
  assert (removeNote
            (with_events p
               (take (insert_index (List.filter (kept step MIDI_NOTE_ON note duration) (m_vEvents p)) step)
                  (List.filter (kept step MIDI_NOTE_ON note duration) (m_vEvents p))
                ++ newStepEvent step MIDI_NOTE_ON note velocity duration
                   :: drop (insert_index (List.filter (kept step MIDI_NOTE_ON note duration) (m_vEvents p)) step)
                        (List.filter (kept step MIDI_NOTE_ON note duration) (m_vEvents p))))
            step note
          = with_events p
              (List.filter (kept step MIDI_NOTE_ON note duration) (m_vEvents p)))
    as Hrm.
  { unfold removeNote, deleteEvent. cbn [m_vEvents with_events].
    rewrite delete_first_skip by (apply Forall_take, kept_no_note, Hd).
    simpl. rewrite !Z.eqb_refl. simpl. rewrite take_drop.
    now destruct p. }
  split; [exact Hrm|]. intros Hnone. rewrite Hrm.
  rewrite filter_all; [apply with_events_same|].
  eapply Forall_impl; [exact Hnone|]. simpl. intros ev Hev.
  unfold kept. now rewrite Hev.
Qed.

Lemma removeNote_addNote_witness :
  removeNote (snd (addNote Scenario.chord_pattern 2 64 100 (f32_of_Z 1))) 2 64
  = Scenario.chord_pattern.
Proof.
  refine (proj2 (removeNote_addNote Scenario.chord_pattern 2 64 100 (f32_of_Z 1) _ _ _) _).
  - reflexivity.
  - reflexivity.
  - repeat constructor.
Defined.

(** X5: at a step and pitch where the pattern stores no note-on event,
    [removeNote] leaves the pattern as it is, and [getNoteVelocity] and
    [getNoteDuration] return 0. *)
Theorem missing_note p step note :
  Forall (fun ev => is_note step note ev = false) (m_vEvents p) ->
  removeNote p step note = p
  /\ getNoteVelocity p step note = 0
  /\ getNoteDuration p step note = f32_of_Z 0.
Proof.
  intros Hnone.
  unfold removeNote, deleteEvent, getNoteVelocity, getNoteDuration.
  rewrite <- (app_nil_r (m_vEvents p)).
  rewrite delete_first_skip, find_velocity_skip, find_duration_skip
    by exact Hnone.
  simpl. rewrite app_nil_r, with_events_same.
  repeat split. now destruct (getSteps p <=? step).
Qed.

Lemma missing_note_witness :
  removeNote Scenario.chord_pattern 3 60 = Scenario.chord_pattern
  /\ getNoteVelocity Scenario.chord_pattern 3 60 = 0
  /\ getNoteDuration Scenario.chord_pattern 3 60 = f32_of_Z 0.
Proof.
  apply (missing_note Scenario.chord_pattern 3 60). repeat constructor.
Defined.

(** *** Shrinking the pattern *)

Lemma filter_none {A} (f : A -> bool) v :
  Forall (fun x => f x = false) v -> List.filter f v = [].
Proof.
  induction 1 as [|x rest Hx _ IH]; simpl; [reflexivity|]. now rewrite Hx.
Qed.

Lemma shrink_index_filter v steps :
  sorted_events v ->
  take (shrink_index v steps) v
  = List.filter (fun ev => getPosition ev <? steps) v.
Proof.
  unfold sorted_events. induction 1 as [|ev rest Hs IH Hle]; simpl;
    [reflexivity|].
  destruct (Z.leb_spec steps (getPosition ev)) as [Hge|Hlt].
  - destruct (Z.ltb_spec (getPosition ev) steps); [lia|]. simpl.
    symmetry. apply filter_none.
    eapply Forall_impl; [exact Hle|]. simpl. intros e He.
    apply Z.ltb_ge. lia.
  - destruct (Z.ltb_spec (getPosition ev) steps); [|lia]. simpl.
    now rewrite IH.
Qed.

(** X7: on a pattern whose events are in order, [setBeatsInPattern(beats)]
    with [beats > 0] keeps exactly the events that lie before the new end, the
    32-bit product of [beats] and the steps per beat. *)
Theorem setBeatsInPattern_sorted p beats :
  sorted_events (m_vEvents p) -> 0 < beats ->
  let p' := setBeatsInPattern p beats in
  m_vEvents p'
  = List.filter (fun ev => getPosition ev <? getSteps p') (m_vEvents p)
  /\ (forall ev, In ev (m_vEvents p') <->
                 In ev (m_vEvents p) /\ getPosition ev < getSteps p')
  /\ getSteps p' = u32 (beats * m_nStepsPerBeat p).
Proof.
  intros Hs Hb. cbv zeta. unfold setBeatsInPattern.
  destruct (Z.gtb_spec beats 0); [|lia].
  cbn [m_vEvents with_events with_beats]. rewrite getSteps_with_events.
  rewrite shrink_index_filter by exact Hs.
  split; [reflexivity|]. split; [|reflexivity].
  intros ev. rewrite filter_In, Z.ltb_lt. reflexivity.
Qed.

Lemma setBeatsInPattern_sorted_witness :
  m_vEvents (setBeatsInPattern Scenario.chord_pattern 1)
  = [newStepEvent 0 MIDI_NOTE_ON 60 100 (f32_of_Z 1); newStepEvent 0 MIDI_CONTROL 7 90 (f32_of_Z 1)].
Proof.
  assert (sorted_events (m_vEvents Scenario.chord_pattern)) as Hs.
  { unfold sorted_events. repeat constructor; simpl; lia. }
  rewrite (proj1 (setBeatsInPattern_sorted Scenario.chord_pattern 1 Hs
                    ltac:(lia))).
  reflexivity.
Defined.

(** *** The grid *)

Lemma allowed_steps_test value :
  (value =? 1) || (value =? 2) || (value =? 3) || (value =? 4)
  || (value =? 6) || (value =? 8) || (value =? 12) || (value =? 24) = true
  <-> allowed_steps value.
Proof.
  unfold allowed_steps. rewrite !orb_true_iff, !Z.eqb_eq. tauto.
Qed.

(** The cases of [setStepsPerBeat]. *)
Lemma setStepsPerBeat_cases p value :
  let r := setStepsPerBeat p value in
  (fst r = true <-> allowed_steps value)
  /\ (fst r = true -> m_nStepsPerBeat (snd r) = value)
  /\ (fst r = false ->
      m_nStepsPerBeat p <> 0 -> m_nStepsPerBeat p <= 24 -> snd r = p)
  /\ (fst r = false ->
      m_nStepsPerBeat p = 0 \/ 24 < m_nStepsPerBeat p ->
      snd r = with_stepsPerBeat p 4)
  /\ (allowed_steps (m_nStepsPerBeat p) ->
      allowed_steps (m_nStepsPerBeat (snd r)))
  /\ m_nBeats (snd r) = m_nBeats p.
Proof.
  cbv zeta. unfold setStepsPerBeat.
  pose proof (allowed_steps_test value) as Ht.
  destruct ((value =? 1) || (value =? 2) || (value =? 3) || (value =? 4)
            || (value =? 6) || (value =? 8) || (value =? 12) || (value =? 24))
    eqn:Hv.
  - assert (allowed_steps value) as Ha by now apply Ht.
    cbn [fst snd]. rewrite for_each_copy_id.
    split; [split; [intros _; exact Ha|reflexivity]|].
    destruct ((m_nStepsPerBeat p =? 0) || (m_nStepsPerBeat p >? 24));
      (split; [intros _; reflexivity|]);
      (split; [discriminate|]); (split; [discriminate|]);
      (split; [intros _; exact Ha|reflexivity]).
  - assert (~ allowed_steps value) as Ha
      by (intros H; apply Ht in H; discriminate).
    cbn [fst snd].
    split; [split; [discriminate|tauto]|].
    split; [discriminate|].
    destruct ((m_nStepsPerBeat p =? 0) || (m_nStepsPerBeat p >? 24)) eqn:Hs.
    + assert (m_nStepsPerBeat p = 0 \/ 24 < m_nStepsPerBeat p) as Hbad.
      { apply orb_true_iff in Hs as [Hs|Hs]; [left|right]; lia. }
      split; [intros _ H0 H24; lia|].
      split; [reflexivity|].
      split; [|reflexivity].
      intros Hal. exfalso. unfold allowed_steps in Hal. lia.
    + assert (m_nStepsPerBeat p <> 0 /\ m_nStepsPerBeat p <= 24) as Hok.
      { apply orb_false_iff in Hs as [H1 H2]. split; lia. }
      split; [reflexivity|].
      split; [intros _ Hbad; lia|].
      split; [tauto|reflexivity].
Qed.

(** X8: [setStepsPerBeat] returns true exactly for the values 1, 2, 3, 4, 6,
    8, 12 and 24, and the pattern then has that many steps per beat.  When it
    returns false the steps per beat stay, unless they were 0 or over 24: then
    they have become 4.  The beats and the events are as they were in every
    case. *)
Theorem setStepsPerBeat_accepts p value :
  let r := setStepsPerBeat p value in
  (fst r = true <-> allowed_steps value)
  /\ m_nStepsPerBeat (snd r)
     = (if fst r then value
        else if (m_nStepsPerBeat p =? 0) || (m_nStepsPerBeat p >? 24) then 4
             else m_nStepsPerBeat p)
  /\ m_nBeats (snd r) = m_nBeats p
  /\ m_vEvents (snd r) = m_vEvents p.
Proof.
  destruct (setStepsPerBeat_cases p value)
    as (Hiff & Hval & Hkeep & Hfour & _ & Hbeats).
  cbv zeta in *.
  split; [exact Hiff|]. split; [|split; [exact Hbeats|]].
  - destruct (fst (setStepsPerBeat p value)) eqn:E.
    + now apply Hval.
    + destruct (Z.eqb_spec (m_nStepsPerBeat p) 0) as [H0|H0]; cbn [orb].
      { rewrite Hfour by tauto. reflexivity. }
      destruct (Z.gtb_spec (m_nStepsPerBeat p) 24) as [H24|H24].
      { rewrite Hfour by (try reflexivity; right; lia). reflexivity. }
      rewrite Hkeep by (try reflexivity; lia). reflexivity.
  - apply setStepsPerBeat_events.
Qed.

Lemma getClocksPerStep_allowed p :
  allowed_steps (m_nStepsPerBeat p) ->
  getClocksPerStep p * m_nStepsPerBeat p = 24.
Proof.
  unfold allowed_steps, getClocksPerStep.
  intros [H|[H|[H|[H|[H|[H|[H|H]]]]]]]; rewrite H; reflexivity.
Qed.

(** X9: after a successful [setStepsPerBeat] the clocks per step times the
    steps per beat are the 24 clocks of a beat, and the length of the pattern
    in clocks is its steps times the clocks per step (for a pattern whose
    length in clocks fits 32 bits). *)
Theorem clock_grid p value :
  fst (setStepsPerBeat p value) = true ->
  0 <= m_nBeats p -> m_nBeats p * 24 < 2 ^ 32 ->
  let p' := snd (setStepsPerBeat p value) in
  getClocksPerStep p' * m_nStepsPerBeat p' = 24
  /\ getLength p' = getSteps p' * getClocksPerStep p'.
Proof.
  intros Hok Hb Hlen. cbv zeta.
  destruct (setStepsPerBeat_cases p value) as (Hiff & Hval & _ & _ & _ & Hbeats).
  cbv zeta in *. apply Hiff in Hok as Hal.
  set (p' := snd (setStepsPerBeat p value)) in *.
  assert (allowed_steps (m_nStepsPerBeat p')) as Hal'
    by (rewrite Hval by exact Hok; exact Hal).
  pose proof (getClocksPerStep_allowed p' Hal') as Hgrid.
  split; [exact Hgrid|].
  unfold getLength, getSteps. rewrite Hbeats.
  assert (1 <= m_nStepsPerBeat p' <= 24) as Hr by (unfold allowed_steps in Hal'; lia).
  rewrite !u32_small by nia.
  rewrite <- Z.mul_assoc, (Z.mul_comm (m_nStepsPerBeat p')), Hgrid. reflexivity.
Qed.

Lemma clock_grid_witness :
  let p' := snd (setStepsPerBeat Scenario.empty_pattern 6) in
  getClocksPerStep p' * m_nStepsPerBeat p' = 24
  /\ getLength p' = getSteps p' * getClocksPerStep p'.
Proof.
  apply (clock_grid Scenario.empty_pattern 6); [reflexivity|simpl; lia|simpl; lia].
Defined.

(** X10: the constructor gives a pattern without events, with the beats asked
    for.  The steps per beat are the ones asked for when they are among 1, 2,
    3, 4, 6, 8, 12 and 24, and 4 when 0 or more than 24 are asked for; any
    other value (5, say) is kept, although [setStepsPerBeat] refuses it. *)
Theorem newPattern_steps beats stepsPerBeat scale tonic refNote :
  let p := newPattern beats stepsPerBeat scale tonic refNote in
  m_nBeats p = beats /\ m_vEvents p = []
  /\ (allowed_steps stepsPerBeat -> m_nStepsPerBeat p = stepsPerBeat)
  /\ (stepsPerBeat = 0 \/ 24 < stepsPerBeat -> m_nStepsPerBeat p = 4)
  /\ (~ allowed_steps stepsPerBeat -> stepsPerBeat <> 0 ->
      stepsPerBeat <= 24 ->
      m_nStepsPerBeat p = stepsPerBeat /\ ~ allowed_steps (m_nStepsPerBeat p)).
Proof.
  cbv zeta. unfold newPattern.
  set (p0 := mkPattern beats stepsPerBeat scale tonic refNote []).
  destruct (setStepsPerBeat_cases p0 stepsPerBeat)
    as (Hiff & Hval & Hkeep & Hfour & _ & Hbeats).
  cbv zeta in *.
  pose proof (setStepsPerBeat_events p0 stepsPerBeat) as Hev.
  repeat apply conj.
  - exact Hbeats.
  - exact Hev.
  - intros Hal. apply Hval. now apply Hiff.
  - intros Hbad.
    assert (fst (setStepsPerBeat p0 stepsPerBeat) = false) as Hf.
    { apply not_true_is_false. intros E.
      apply Hiff in E. unfold allowed_steps in E. lia. }
    now rewrite (Hfour Hf Hbad).
  - intros Hna H0 H24.
    assert (fst (setStepsPerBeat p0 stepsPerBeat) = false) as Hf.
    { apply not_true_is_false. intros E.
      apply Hiff in E. contradiction. }
    rewrite (Hkeep Hf H0 H24). simpl. split; [reflexivity|exact Hna].
Qed.

(** *** Program changes *)



Lemma find_program_head v step :
  find_program v step
  = match programs_at step v with
    | [] => 255
    | ev :: _ => getValue1start ev
    end.
Proof.
  induction v as [|ev rest IH]; simpl; [reflexivity|].
  destruct (getPosition ev =? step), (getCommand ev =? MIDI_PROGRAM);
    simpl; auto.
Qed.

Lemma programs_at_filter f step v :
  programs_at step (List.filter f v) = List.filter f (programs_at step v).
Proof.
  unfold programs_at. induction v as [|ev rest IH]; simpl; [reflexivity|].
  destruct (f ev) eqn:Hf, (is_program step ev) eqn:Hp; unfold is_program in Hp;
    simpl; rewrite ?Hf, ?Hp; simpl; rewrite ?Hf; now rewrite IH.
Qed.

Lemma filter_length_le {A} (f : A -> bool) v :
  (length (List.filter f v) <= length v)%nat.
Proof.
  induction v as [|x rest IH]; simpl; [lia|]. destruct (f x); simpl; lia.
Qed.

Lemma programs_at_insert step i x v :
  programs_at step (vector_insert i x v)
  = programs_at step (take i v)
    ++ (if is_program step x then [x] else []) ++ programs_at step (drop i v).
Proof.
  unfold vector_insert, programs_at. rewrite List.filter_app. simpl.
  unfold is_program. now destruct (_ && _).
Qed.

Lemma programs_at_take_drop step i v :
  programs_at step (take i v) ++ programs_at step (drop i v)
  = programs_at step v.
Proof. unfold programs_at. now rewrite <- List.filter_app, take_drop. Qed.

(** Deleting the first program change of a step. *)
Lemma programs_at_delete_head v step :
  find_program v step <> 255 ->
  programs_at step (delete_first v step MIDI_PROGRAM (find_program v step))
  = tail (programs_at step v).
Proof.
  unfold programs_at. induction v as [|ev rest IH]; simpl; [congruence|].
  destruct (getPosition ev =? step) eqn:Epos;
    destruct (getCommand ev =? MIDI_PROGRAM) eqn:Ecmd; simpl.
  - rewrite Z.eqb_refl. reflexivity.
  - intros H. rewrite Epos, Ecmd. simpl. now apply IH.
  - intros H. rewrite Epos. simpl. now apply IH.
  - intros H. rewrite Epos. simpl. now apply IH.
Qed.

Lemma programs_at_delete_other v step step' command value1 :
  step' <> step ->
  programs_at step' (delete_first v step command value1)
  = programs_at step' v.
Proof.
  intros Hne. unfold programs_at.
  induction v as [|ev rest IH]; simpl; [reflexivity|].
  destruct (Z.eqb_spec (getPosition ev) step) as [Epos|Epos]; simpl.
  - destruct (Z.eqb_spec (getPosition ev) step'); [lia|]. simpl.
    destruct (_ && _); simpl; [reflexivity|].
    destruct (Z.eqb_spec (getPosition ev) step'); [lia|]. simpl. exact IH.
  - now rewrite IH.
Qed.

Lemma programs_at_delete_first v step program :
  find_program v step = program -> program <> 255 ->
  programs_at step (delete_first v step MIDI_PROGRAM program)
  = tail (programs_at step v)
  /\ forall step', step' <> step ->
       programs_at step' (delete_first v step MIDI_PROGRAM program)
       = programs_at step' v.
Proof.
  intros <- Hp. split; [now apply programs_at_delete_head|].
  intros step' Hne. now apply programs_at_delete_other.
Qed.

Lemma delete_first_Forall (P : StepEvent -> Prop) v position command value1 :
  Forall P v -> Forall P (delete_first v position command value1).
Proof.
  intros H. apply List.Forall_forall. intros ev Hev.
  apply delete_first_In in Hev. rewrite List.Forall_forall in H. now apply H.
Qed.

(** [removeProgramChange] under the invariant: the step has no program change
    afterwards, the other steps keep theirs. *)
Lemma removeProgramChange_programs p step :
  step < getSteps p -> one_program_per_step (m_vEvents p) ->
  let p1 := snd (removeProgramChange p step) in
  programs_at step (m_vEvents p1) = []
  /\ (forall step', step' <> step ->
        programs_at step' (m_vEvents p1) = programs_at step' (m_vEvents p))
  /\ Forall (fun ev => getCommand ev = MIDI_PROGRAM -> getValue1start ev <> 255)
       (m_vEvents p1)
  /\ getSteps p1 = getSteps p.
Proof.
  intros Hstep [Hone Hval]. cbv zeta.
  unfold removeProgramChange, getProgramChange.
  destruct (Z.leb_spec (getSteps p) step); [lia|].
  pose proof (find_program_head (m_vEvents p) step) as Hhead.
  pose proof (Hone step) as Hlen.
  destruct (Z.eqb_spec (find_program (m_vEvents p) step) 255) as [E|E];
    cbn [snd].
  - repeat split; try assumption.
    destruct (programs_at step (m_vEvents p)) as [|ev rest] eqn:Hp;
      [reflexivity|].
    exfalso. rewrite E in Hhead.
    assert (In ev (programs_at step (m_vEvents p))) as Hin
      by (rewrite Hp; now left).
    apply filter_In in Hin as [Hin Htest].
    apply andb_true_iff in Htest as [_ Hc]. apply Z.eqb_eq in Hc.
    rewrite List.Forall_forall in Hval. apply (Hval ev Hin Hc). congruence.
  - destruct (programs_at_delete_first (m_vEvents p) step _ eq_refl E)
      as [Hd1 Hd2].
    unfold deleteEvent. cbn [m_vEvents with_events].
    rewrite getSteps_with_events.
    repeat split.
    + rewrite Hd1. destruct (programs_at step (m_vEvents p)) as [|ev [|e2 rest]];
        simpl in *; try reflexivity; lia.
    + exact Hd2.
    + now apply delete_first_Forall.
Qed.

(** X6: one program change per step.  From a pattern with at most one program
    change on each step, none of them of value 0xFF, a successful
    [addProgramChange] gives a pattern with the same property, in which
    [getProgramChange] at the step returns the new program. *)
Theorem addProgramChange_read_back default_value2 default_duration
  p step program p' :
  one_program_per_step (m_vEvents p) ->
  addProgramChange default_value2 default_duration p step program = (true, p') ->
  getProgramChange p' step = program
  /\ one_program_per_step (m_vEvents p').
Proof.
  intros Hinv. unfold addProgramChange.
  destruct (_ || _) eqn:G; [discriminate|].
  intros H. apply (f_equal snd) in H. cbn [snd] in H. subst p'.
  apply orb_false_iff in G as [G1 G2].
  assert (step < getSteps p) as Hstep by lia.
  assert (program <> 255) as Hprog by lia.
  destruct (removeProgramChange_programs p step Hstep Hinv)
    as (Hnone & Hother & Hval & Hsteps).
  cbv zeta in *.
  set (p1 := snd (removeProgramChange p step)) in *.
  pose proof (addEvent_events p1 step MIDI_PROGRAM program default_value2
                default_duration) as E.
  cbv zeta in E. rewrite E. cbn [fst].
  set (v := List.filter _ (m_vEvents p1)).
  set (new := newStepEvent step MIDI_PROGRAM program default_value2
                default_duration).
  fold (vector_insert (insert_index v step) new v).
  assert (forall s, programs_at s v
                    = List.filter (kept step MIDI_PROGRAM program
                                     default_duration)
                        (programs_at s (m_vEvents p1))) as Hv
    by (intros s; apply programs_at_filter).
  assert (programs_at step (vector_insert (insert_index v step) new v) = [new])
    as Hnew.
  { rewrite programs_at_insert.
    pose proof (programs_at_take_drop step (insert_index v step) v) as Htd.
    rewrite Hv, Hnone in Htd. simpl in Htd.
    apply app_eq_nil in Htd as [-> ->].
    unfold is_program, new. simpl. now rewrite !Z.eqb_refl. }
  split.
  - unfold getProgramChange. rewrite getSteps_with_events, Hsteps.
    destruct (Z.leb_spec (getSteps p) step); [lia|].
    cbn [m_vEvents with_events].
    rewrite find_program_head, Hnew. reflexivity.
  - cbn [m_vEvents with_events]. split.
    + intros s. destruct (Z.eq_dec s step) as [->|Hne].
      * rewrite Hnew. simpl. lia.
      * rewrite programs_at_insert.
        assert (is_program s new = false) as ->.
        { unfold is_program, new. simpl.
          destruct (Z.eqb_spec step s); [congruence|reflexivity]. }
        simpl. rewrite programs_at_take_drop, Hv, (Hother s Hne).
        pose proof (filter_length_le
                      (kept step MIDI_PROGRAM program default_duration)
                      (programs_at s (m_vEvents p))).
        destruct Hinv as [Hone _]. pose proof (Hone s). lia.
    + apply vector_insert_Forall. split.
      * intros _. exact Hprog.
      * unfold v. apply List.Forall_forall. intros ev Hev.
        apply filter_In in Hev as [Hev _].
        rewrite List.Forall_forall in Hval. now apply Hval.
Qed.


Lemma addProgramChange_read_back_witness :
  let p' := snd (addProgramChange 0 (f32_of_Z 1) Scenario.program_pattern 4 12) in
  getProgramChange Scenario.program_pattern 4 = 5
  /\ getProgramChange p' 4 = 12 /\ one_program_per_step (m_vEvents p').
Proof.
  split; [reflexivity|].
  apply (addProgramChange_read_back 0 (f32_of_Z 1) Scenario.program_pattern 4 12).
  - split.
    + intros step.
      apply (filter_length_le _ (m_vEvents Scenario.program_pattern)).
    + repeat constructor. simpl. discriminate.
  - reflexivity.
Defined.

(** *** Queries by index *)

Lemma last_step_spec v : forall n,
  let r := last_step v n in
  n <= r /\ Forall (fun ev => getPosition ev <= r) v
  /\ (r = n \/ exists ev, In ev v /\ getPosition ev = r).
Proof.
  induction v as [|ev rest IH]; intros n; cbv zeta; simpl.
  - repeat split; [lia|constructor|now left].
  - destruct (IH (if getPosition ev >? n then getPosition ev else n))
      as (Hle & Hall & Hor). cbv zeta in *.
    set (r := last_step rest _) in *.
    destruct (Z.gtb_spec (getPosition ev) n) as [Hgt|Hgt].
    + repeat split; [lia|constructor; [lia|exact Hall]|].
      right. destruct Hor as [->|[e [He Hp]]]; [exists ev; tauto|].
      exists e. tauto.
    + repeat split; [lia|constructor; [lia|exact Hall]|].
      destruct Hor as [->|[e [He Hp]]]; [now left|].
      right. exists e. tauto.
Qed.

(** X11: [getLastStep] returns 2^32 - 1 (-1 as a [uint32_t]) on a pattern
    without events, and the greatest position of an event on a pattern with
    events. *)
Theorem getLastStep_greatest p :
  (m_vEvents p = [] -> getLastStep p = 2 ^ 32 - 1)
  /\ (m_vEvents p <> [] ->
      Forall (fun ev => 0 <= getPosition ev) (m_vEvents p) ->
      Forall (fun ev => getPosition ev <= getLastStep p) (m_vEvents p)
      /\ exists ev, In ev (m_vEvents p) /\ getPosition ev = getLastStep p).
Proof.
  unfold getLastStep. split.
  - intros ->. reflexivity.
  - intros Hne Hpos. destruct (m_vEvents p) as [|e0 rest] eqn:Hv;
      [congruence|]. cbn [length Nat.eqb].
    destruct (last_step_spec (e0 :: rest) 0) as (Hle & Hall & Hor).
    cbv zeta in *. split; [exact Hall|].
    destruct Hor as [Hz|Hex]; [|exact Hex].
    exists e0. split; [now left|].
    inversion Hall; subst. inversion Hpos; subst. lia.
Qed.

Lemma first_index_spec v step : forall index,
  (first_index v step index = -1 -> 0 <= index ->
   Forall (fun ev => getPosition ev <> step) v)
  /\ (first_index v step index <> -1 \/ index < 0 ->
      0 <= index ->
      exists k ev,
        first_index v step index = index + Z.of_nat k
        /\ v !! k = Some ev /\ getPosition ev = step
        /\ Forall (fun e => getPosition e <> step) (take k v)).
Proof.
  induction v as [|ev rest IH]; intros index; simpl.
  - split; [constructor|]. intros [H|H] H0; [congruence|lia].
  - destruct (Z.eqb_spec (getPosition ev) step) as [E|E].
    + split; [intros; lia|]. intros _ H0.
      exists 0%nat, ev. simpl. repeat split; [lia|exact E|constructor].
    + destruct (IH (index + 1)) as [IH1 IH2]. split.
      * intros Hr H0. constructor; [exact E|]. apply IH1; [exact Hr|lia].
      * intros Hr H0. destruct IH2 as (k & e & Hk & Hl & Hp & Hall);
          [destruct Hr; [now left|lia]|lia|].
        exists (S k), e. simpl. repeat split; try assumption; [lia|].
        constructor; assumption.
Qed.

(** X12: [getFirstEventAtStep] returns -1 when no event is at the step;
    otherwise it returns an index at which [getEventAt] gives an event of the
    step, and no event at a lower index is at the step. *)
Theorem getFirstEventAtStep_finds p step :
  let r := getFirstEventAtStep p step in
  (r = -1 /\ Forall (fun ev => getPosition ev <> step) (m_vEvents p))
  \/ (0 <= r
      /\ exists ev, getEventAt p r = Some ev /\ getPosition ev = step
      /\ forall j e, 0 <= j < r -> getEventAt p j = Some e ->
                     getPosition e <> step).
Proof.
  cbv zeta. unfold getFirstEventAtStep.
  destruct (first_index_spec (m_vEvents p) step 0) as [H1 H2].
  destruct (Z.eq_dec (first_index (m_vEvents p) step 0) (-1)) as [E|E].
  - left. split; [exact E|]. apply H1; [exact E|lia].
  - right. destruct H2 as (k & ev & Hk & Hl & Hp & Hall); [now left|lia|].
    rewrite Hk, Z.add_0_l. split; [lia|].
    exists ev. unfold getEventAt.
    assert (k < length (m_vEvents p))%nat as Hlt
      by (eapply lookup_lt_Some; eauto).
    repeat split.
    + destruct (Z.leb_spec (Z.of_nat (length (m_vEvents p))) (Z.of_nat k));
        [lia|]. now rewrite Nat2Z.id.
    + exact Hp.
    + intros j e Hj.
      destruct (Z.leb_spec (Z.of_nat (length (m_vEvents p))) j);
        [discriminate|]. intros He.
      rewrite List.Forall_forall in Hall. apply Hall.
      apply list_elem_of_In. apply (list_elem_of_lookup_2 _ (Z.to_nat j)).
      rewrite lookup_take_lt by lia. exact He.
Qed.

(** [getEventAt] past the end gives the null pointer. *)
Lemma getEventAt_past_end p index :
  Z.of_nat (length (m_vEvents p)) <= index -> getEventAt p index = None.
Proof.
  intros H. unfold getEventAt.
  now destruct (Z.leb_spec (Z.of_nat (length (m_vEvents p))) index); [|lia].
Qed.



(** *** Transposing back *)

(** A successful [transpose] shifts every note-on. *)
Lemma transpose_in_range p value :
  INT_MIN <= value <= INT_MAX -> byte_notes (m_vEvents p) ->
  ~ Exists (leaves_range value) (m_vEvents p) ->
  transpose p value
  = Some (with_events p (map (shift_note value) (m_vEvents p))).
Proof.
  intros Hv Hb Hx. unfold transpose.
  rewrite transpose_check_false by assumption.
  rewrite transpose_loop_from;
    [|lia|lia|rewrite drop_0; now apply transpose_check_false].
  rewrite take_0, drop_0. simpl. do 2 f_equal.
  apply map_ext_in. intros ev Hin. apply transpose_event_shift.
  - unfold byte_notes in Hb. rewrite List.Forall_forall in Hb. now apply Hb.
  - exact Hv.
  - intros Hl. apply Hx. apply List.Exists_exists. eauto.
Qed.


(** X14: [transpose] by [value] and then by [- value] gives the pattern back.
    On a pattern whose notes are as [addNote] stores them, when no note leaves
    0..127, the first call shifts the pitch of every note-on by [value] and
    the second call restores every event. *)
Theorem transpose_back p value :
  INT_MIN < value <= INT_MAX ->
  plain_notes (m_vEvents p) ->
  ~ Exists (leaves_range value) (m_vEvents p) ->
  exists p1, transpose p value = Some p1
             /\ map getValue1start (m_vEvents p1)
                = map (fun ev => if getCommand ev =? MIDI_NOTE_ON
                                 then getValue1start ev + value
                                 else getValue1start ev) (m_vEvents p)
             /\ transpose p1 (- value) = Some p.
Proof.
  intros Hv Hplain Hx.
  assert (byte_notes (m_vEvents p)) as Hb.
  { eapply Forall_impl; [exact Hplain|]. simpl. tauto. }
  assert (forall ev, In ev (m_vEvents p) -> getCommand ev = MIDI_NOTE_ON ->
            0 <= getValue1start ev + value <= 127) as Hin_range.
  { intros ev Hin Hc.
    destruct (Z_le_gt_dec 0 (getValue1start ev + value));
      destruct (Z_le_gt_dec (getValue1start ev + value) 127); try lia;
      exfalso; apply Hx; apply List.Exists_exists; exists ev;
      (split; [exact Hin|split; [exact Hc|lia]]). }
  exists (with_events p (map (shift_note value) (m_vEvents p))).
  split; [apply transpose_in_range; try assumption; lia|].
  cbn [m_vEvents with_events]. split.
  - rewrite map_map. apply map_ext. intros ev. unfold shift_note.
    now destruct (getCommand ev =? MIDI_NOTE_ON).
  - rewrite transpose_in_range.
    + cbn [m_vEvents with_events]. rewrite map_map.
      replace (map (fun ev => shift_note (- value) (shift_note value ev))
                 (m_vEvents p)) with (m_vEvents p).
      * now destruct p.
      * rewrite <- (map_id (m_vEvents p)) at 1. apply map_ext_in.
        intros ev Hin. unfold plain_notes in Hplain.
        rewrite List.Forall_forall in Hplain.
        destruct (Hplain ev Hin) as [_ Hnote].
        unfold shift_note.
        destruct (Z.eqb_spec (getCommand ev) MIDI_NOTE_ON) as [Hc|Hc].
        -- destruct (Hnote Hc) as [_ Hend]. simpl.
           unfold getCommand in Hc. rewrite Hc. simpl.
           destruct ev as [pos dur cmd v1 v2 v1e v2e]. simpl in *. subst v1e.
           f_equal; lia.
        -- destruct (Z.eqb_spec (getCommand ev) MIDI_NOTE_ON);
             [contradiction|reflexivity].
    + unfold INT_MIN, INT_MAX in *. lia.
    + cbn [m_vEvents with_events]. unfold byte_notes.
      apply List.Forall_forall. intros e He.
      apply in_map_iff in He as [ev [<- Hin]].
      unfold plain_notes in Hplain. rewrite List.Forall_forall in Hplain.
      destruct (Hplain ev Hin) as [Hbyte _]. unfold shift_note.
      destruct (Z.eqb_spec (getCommand ev) MIDI_NOTE_ON) as [Hc|Hc];
        [|exact Hbyte].
      pose proof (Hin_range ev Hin Hc). unfold getValue1start in *.
      simpl. lia.
    + cbn [m_vEvents with_events]. intros Hex.
      apply List.Exists_exists in Hex as [e [He [Hc Hr]]].
      apply in_map_iff in He as [ev [<- Hin]].
      unfold plain_notes in Hplain. rewrite List.Forall_forall in Hplain.
      destruct (Hplain ev Hin) as [Hbyte Hnote]. unfold shift_note in *.
      destruct (Z.eqb_spec (getCommand ev) MIDI_NOTE_ON) as [Hc'|Hc'].
      * destruct (Hnote Hc') as [H127 _]. unfold getValue1start in *.
        simpl in Hr. lia.
      * contradiction.
Qed.

Lemma transpose_back_witness :
  exists p1, transpose Scenario.chord_pattern 7 = Some p1
             /\ transpose p1 (- 7) = Some Scenario.chord_pattern.
Proof.
  destruct (transpose_back Scenario.chord_pattern 7) as (p1 & H1 & _ & H2).
  - unfold INT_MIN, INT_MAX. lia.
  - repeat constructor; simpl; try lia; discriminate.
  - intros Hx. apply List.Exists_exists in Hx as [ev [Hin [Hc Hr]]].
    simpl in Hin. destruct Hin as [<-|[<-|[<-|[]]]]; simpl in *;
      try lia; discriminate.
  - exists p1. split; assumption.
Defined.

(** *** Where a note starts *)

Lemma lt_ceiling (z : Z) (x : Q) :
  z < Qceiling x <-> (inject_Z z < x)%Q.
Proof.
  split; intros H.
  - apply Qle_lt_trans with (inject_Z (Qceiling x - 1)).
    + rewrite <- Zle_Qle. lia.
    + apply Qceiling_lt.
  - rewrite Zlt_Qlt. apply Qlt_le_trans with x; [exact H|apply Qle_ceiling].
Qed.

Lemma find_note_start_step step note ev rest :
  int_events [ev] ->
  (covers step note ev
   /\ find_note_start (ev :: rest) step note = Some (getPosition ev))
  \/ (~ covers step note ev
      /\ find_note_start (ev :: rest) step note
         = find_note_start rest step note).
Proof.
  intros Hint.
  inversion Hint as [|? ? [Hpos (fEnd & Hval & Hceil)] _]; subst.
  cbn [find_note_start]. unfold f32_ceil_int. rewrite Hval. cbv zeta.
  unfold INT_MAX in *.
  assert ((INT_MIN <=? Qceiling fEnd) && (Qceiling fEnd <=? 2 ^ 31 - 1) = true)
    as -> by (unfold INT_MIN; apply andb_true_intro; split; apply Z.leb_le; lia).
  rewrite u32_small by lia.
  rewrite s32_small by (unfold INT_MIN, INT_MAX; lia).
  destruct (Z.leb_spec (getPosition ev) step) as [H1|H1].
  2:{ right. split; [|reflexivity]. intros (_ & _ & Hle & _). lia. }
  destruct (Z.ltb_spec step (Qceiling fEnd)) as [H2|H2]; cbn [andb].
  2:{ right. split; [|reflexivity].
      intros (_ & _ & _ & q & Hq & Hlt). rewrite Hval in Hq.
      injection Hq as Hq. subst q. apply lt_ceiling in Hlt. lia. }
  destruct (Z.eqb_spec (getCommand ev) MIDI_NOTE_ON) as [H3|H3]; cbn [andb].
  2:{ right. split; [|reflexivity]. intros (Hc & _). contradiction. }
  destruct (Z.eqb_spec (getValue1start ev) note) as [H4|H4].
  2:{ right. split; [|reflexivity]. intros (_ & Hc & _). contradiction. }
  left. split; [|reflexivity].
  split; [exact H3|]. split; [exact H4|]. split; [exact H1|].
  exists fEnd. split; [exact Hval|]. now apply lt_ceiling.
Qed.

Lemma find_note_start_spec step note : forall v,
  int_events v ->
  (find_note_start v step note = Some (-1)
   /\ Forall (fun ev => ~ covers step note ev) v)
  \/ (exists before ev after,
        v = before ++ ev :: after
        /\ Forall (fun e => ~ covers step note e) before
        /\ covers step note ev
        /\ find_note_start v step note = Some (getPosition ev)).
Proof.
  induction v as [|ev rest IH]; intros Hint.
  - left. split; [reflexivity|constructor].
  - inversion Hint as [|? ? Hev Hrest]; subst.
    destruct (find_note_start_step step note ev rest)
      as [[Hc E]|[Hn E]]; [now constructor| |].
    + right. exists [], ev, rest.
      split; [reflexivity|]. split; [constructor|]. split; assumption.
    + rewrite E.
      destruct (IH Hrest)
        as [[E' Hall]|(before & e & after & -> & Hb & Hc & E')].
      * left. split; [exact E'|]. now constructor.
      * right. exists (ev :: before), e, after.
        split; [reflexivity|]. split; [now constructor|]. split; assumption.
Qed.

(** X24: [getNoteStart] returns -1 when no stored note-on of the pitch sounds
    over the step, and otherwise the start of the first stored one that does.
    A note sounds over the step when it starts at or before it and its end,
    the [float] sum of its position and its duration, is after it.  The
    positions are those an [int] holds, and the ends are numbers whose ceiling
    a non-negative [int] holds, so that every conversion is defined. *)
Theorem getNoteStart_covers p step note :
  int_events (m_vEvents p) ->
  (getNoteStart p step note = Some (-1)
   /\ Forall (fun ev => ~ covers step note ev) (m_vEvents p))
  \/ (exists before ev after,
        m_vEvents p = before ++ ev :: after
        /\ Forall (fun e => ~ covers step note e) before
        /\ covers step note ev
        /\ getNoteStart p step note = Some (getPosition ev)
        /\ 0 <= getPosition ev <= step).
Proof.
  intros Hint. unfold getNoteStart.
  destruct (find_note_start_spec step note (m_vEvents p) Hint)
    as [H|(before & ev & after & Hv & Hb & Hc & E)].
  - left. exact H.
  - right. exists before, ev, after.
    split; [exact Hv|]. split; [exact Hb|]. split; [exact Hc|].
    split; [exact E|].
    destruct Hc as (_ & _ & Hle & _). split; [|exact Hle].
    unfold int_events in Hint. rewrite Hv in Hint.
    apply Forall_app in Hint as [_ Hint].
    inversion Hint as [|? ? [Hpos _] _]; subst. lia.
Qed.

Lemma getNoteStart_covers_witness :
  getNoteStart Scenario.long_pattern 3 60 = Some 0.
Proof.
  destruct (getNoteStart_covers Scenario.long_pattern 3 60)
    as [[H _]|(before & ev & after & _ & _ & _ & H & _)].
  - constructor; [|constructor].
    split; [vm_compute; split; discriminate|].
    exists 8%Q. split; [reflexivity|]. vm_compute. split; discriminate.
  - vm_compute in H. discriminate.
  - reflexivity.
Defined.

End PatternMore.

(** ** The schedule: slots, timing and what the drain leaves *)

Module ScheduleMore.

Import Schedule ScheduleFacts.

(** X17: [sendMidiMsg] takes the first free slot.  On a schedule of fewer than
    2^32 entries the search ends; the message is stored at the least time not
    yet taken, which is at most the number of entries, and every other time
    holds what it held. *)
Theorem sendMidiMsg_adds pMsg s :
  Z.of_nat (length s) < 2 ^ 32 ->
  exists time s',
    sendMidiMsg pMsg s = Some s'
    /\ 0 <= time <= Z.of_nat (length s)
    /\ find time s = None
    /\ (forall t, 0 <= t < time -> find t s <> None)
    /\ find time s' = Some (Some pMsg)
    /\ (forall t, t <> time -> find t s' = find t s)
    /\ length s' = S (length s)
    /\ (ordered s -> ordered s').
Proof.
  intros Hroom.
  destruct (sendMidiMsg_slot pMsg s Hroom) as (time & Hs & H0 & Hfree & Htaken).
  exists time, (assign time (Some pMsg) s).
  split; [exact Hs|].
  split; [split; [exact H0|now apply taken_below]|].
  split; [exact Hfree|]. split; [exact Htaken|].
  split; [apply find_assign_same|].
  split; [intros t Ht; now apply find_assign_other|].
  split; [now apply length_assign|apply assign_ordered].
Qed.

Lemma sendMidiMsg_adds_witness :
  exists time s',
    sendMidiMsg Scenario.msg_a Scenario.crowded = Some s'
    /\ 0 <= time <= 3 /\ find time s' = Some (Some Scenario.msg_a)
    /\ length s' = 4%nat.
Proof.
  destruct (sendMidiMsg_adds Scenario.msg_a Scenario.crowded)
    as (time & s' & H1 & H2 & _ & _ & H3 & _ & H4 & _).
  - simpl. lia.
  - exists time, s'. repeat split; try assumption; simpl in H2; lia.
Defined.

Section DrainMore.

Variable reserve : list emission -> Z -> bool.
Variables nNow nFrames : Z.

(** The entries the loop emits were due before the end of the period, each
    is emitted no earlier than its frame, and the loop stops at [end()] or in
    front of an entry that is not due. *)
Lemma drain_loop_due ahead : forall walked nNextTime out,
  0 <= nNow -> 0 <= nNextTime ->
  Forall (fun k => 0 <= k < 2 ^ 32) (keys ahead) ->
  let r := drain_loop reserve nNow nFrames walked ahead nNextTime out in
  exists new,
    snd (fst r) = out ++ new
    /\ (length new <= length ahead)%nat
    /\ Forall2 (fun e entry =>
                  fst entry < u32 (nNow + nFrames)
                  /\ 0 <= offset e /\ fst entry - nNow <= offset e)
         new (take (length new) ahead)
    /\ (snd r = Beyond ->
        exists entry rest, drop (length new) ahead = entry :: rest
                           /\ u32 (nNow + nFrames) <= fst entry)
    /\ (snd r = Exhausted -> drop (length new) ahead = [])
    /\ (snd r <> Bumped -> fst (fst r) = drop (length new) ahead).
Proof.
  induction ahead as [|[first second] ahead' IH];
    intros walked nNextTime out Hnow Hn Hk; cbv zeta.
  - exists []. simpl. rewrite app_nil_r.
    repeat split; try constructor; try discriminate; lia.
  - simpl drain_loop.
    inversion Hk as [|? ? Hfirst Hk']; subst.
    destruct (Z.leb_spec (u32 (nNow + nFrames)) first) as [Hend|Hend].
    { exists []. simpl. rewrite app_nil_r.
      repeat split; try solve [constructor]; try discriminate; try lia.
      intros _. exists (first, second), ahead'. split; [reflexivity|exact Hend]. }
    set (nTime0 := if first <? nNow then nNextTime else u32 (first - nNow)).
    set (nTime := if nTime0 <? nNextTime then nNextTime else nTime0).
    assert (nNextTime <= nTime /\ first - nNow <= nTime) as [Hle Hearly].
    { unfold nTime, nTime0.
      destruct (Z.ltb_spec first nNow).
      - destruct (Z.ltb_spec nNextTime nNextTime); lia.
      - rewrite u32_small by lia.
        destruct (Z.ltb_spec (first - nNow) nNextTime); lia. }
    destruct (Z.leb_spec nFrames nTime) as [Hb|Hb].
    { exists []. simpl. rewrite app_nil_r.
      repeat split; try solve [constructor]; try discriminate;
        try congruence; lia. }
    destruct (reserve out nTime); simpl negb; cbv iota.
    2:{ exists []. simpl. rewrite app_nil_r.
        repeat split; try solve [constructor]; try discriminate; lia. }
    destruct (IH (walked ++ [(first, None)]) (u32 (nTime + 1))
                (out ++ [mkEmission nTime second]) Hnow) as [new H];
      [apply u32_range|exact Hk'|].
    cbv zeta in H. destruct H as (Hout & Hlen & Hall & Hbeyond & Hex & Hrem).
    exists (mkEmission nTime second :: new). simpl.
    repeat apply conj.
    + rewrite Hout, <- app_assoc. reflexivity.
    + lia.
    + constructor; [simpl; repeat split; lia|exact Hall].
    + exact Hbeyond.
    + exact Hex.
    + exact Hrem.
Qed.

(** X15: what the drain emits was due, and is not early.  The i-th emitted
    event carries the message of the i-th entry of the schedule; the frame of
    that entry is before the end of the period, and the offset of the event is
    within the period and no earlier than the frame of the entry. *)
Theorem emitted_timing s :
  0 <= nNow -> nFrames < 2 ^ 32 ->
  Forall (fun k => 0 <= k < 2 ^ 32) (keys s) ->
  forall i e entry,
    emitted reserve nNow nFrames s !! i = Some e -> s !! i = Some entry ->
    0 <= offset e < nFrames
    /\ fst entry - nNow <= offset e
    /\ fst entry < u32 (nNow + nFrames)
    /\ bytes e = snd entry.
Proof.
  intros Hnow Hf Hk i e entry He Hentry.
  destruct (drain_loop_due s [] 0 [] Hnow ltac:(lia) Hk) as [new H].
  cbv zeta in H. destruct H as (Hout & Hlen & Hall & _).
  destruct (drain_loop_inv reserve nNow nFrames Hf s [] 0 [] ltac:(lia))
    as [new' H'].
  cbv zeta in H'. destruct H' as (_ & Hout' & Hbytes & _ & Hlt & _).
  unfold emitted, drain in He. rewrite Hout in He. rewrite Hout' in Hout.
  simpl in Hout, He. subst new'.
  assert (i < length new)%nat as Hi by (eapply lookup_lt_Some; eauto).
  assert (take (length new) s !! i = Some entry) as Ht
    by (rewrite lookup_take_lt by lia; exact Hentry).
  destruct (Forall2_lookup_lr _ _ _ _ _ _ Hall He Ht) as (H1 & H2 & H3).
  rewrite List.Forall_forall in Hlt.
  assert (offset e < nFrames) as H4.
  { apply Hlt. apply list_elem_of_In. eapply list_elem_of_lookup_2; eauto. }
  repeat split; try assumption.
  assert (map bytes new !! i = map snd (take (length new) s) !! i) as Hx
    by now rewrite Hbytes.
  rewrite !lookup_map, He, Ht in Hx. simpl in Hx. congruence.
Qed.

Lemma ordered_drop n s : ordered s -> ordered (drop n s).
Proof.
  unfold ordered. revert n. induction s as [|e rest IH]; intros [|n] H;
    simpl; try assumption.
  inversion H; subst. now apply IH.
Qed.

Lemma ordered_head_least entry rest :
  ordered (entry :: rest) ->
  Forall (fun e => fst entry <= fst e) (entry :: rest).
Proof.
  unfold ordered. simpl. intros H. inversion H as [|? ? _ Hk]; subst.
  constructor; [lia|].
  apply List.Forall_forall. intros e He.
  rewrite List.Forall_forall in Hk.
  assert (fst entry < fst e) by (apply Hk; now apply in_map). lia.
Qed.

(** X18: when the drain ends at the end of the schedule or at an entry beyond
    the period, the schedule it leaves is what it did not emit, and these are
    exactly the entries at or after the end of the period: nothing due is
    left, nothing later is lost. *)
Theorem drain_leaves_later_entries s :
  0 <= nNow -> ordered s ->
  Forall (fun k => 0 <= k < 2 ^ 32) (keys s) ->
  exit_of reserve nNow nFrames s = Exhausted
  \/ exit_of reserve nNow nFrames s = Beyond ->
  let n := length (emitted reserve nNow nFrames s) in
  remaining reserve nNow nFrames s = drop n s
  /\ Forall (fun entry => fst entry < u32 (nNow + nFrames)) (take n s)
  /\ Forall (fun entry => u32 (nNow + nFrames) <= fst entry) (drop n s).
Proof.
  intros Hnow Ho Hk Hexit.
  destruct (drain_loop_due s [] 0 [] Hnow ltac:(lia) Hk) as [new H].
  cbv zeta in H. destruct H as (Hout & Hlen & Hall & Hbeyond & Hex & Hrem).
  cbv zeta. unfold emitted, remaining, exit_of, drain in *.
  rewrite Hout. simpl app.
  split; [apply Hrem; destruct Hexit as [->| ->]; discriminate|].
  split.
  - apply List.Forall_forall. intros entry Hin.
    apply list_elem_of_In, list_elem_of_lookup_1 in Hin as [i Hi].
    assert (i < length new)%nat as Hlt.
    { apply lookup_lt_Some in Hi. rewrite length_take in Hi. lia. }
    destruct (lookup_lt_is_Some_2 new i Hlt) as [e He].
    destruct (Forall2_lookup_lr _ _ _ _ _ _ Hall He Hi) as (H1 & _). exact H1.
  - destruct Hexit as [Hx|Hx].
    + rewrite (Hex Hx). constructor.
    + destruct (Hbeyond Hx) as (entry & rest & Hd & Hend). rewrite Hd.
      pose proof (ordered_drop (length new) s Ho) as Ho'. rewrite Hd in Ho'.
      eapply Forall_impl; [apply ordered_head_least, Ho'|].
      simpl. intros; lia.
Qed.

End DrainMore.

Lemma emitted_timing_witness :
  let e := mkEmission 1 (Some Scenario.msg_b) in
  0 <= offset e < 2 /\ 99 - 100 <= offset e /\ 99 < u32 (100 + 2)
  /\ bytes e = Some Scenario.msg_b.
Proof.
  apply (emitted_timing Scenario.roomy 100 2 Scenario.crowded ltac:(lia)
           ltac:(lia)
           ltac:(repeat constructor; simpl; lia) 1%nat
           (mkEmission 1 (Some Scenario.msg_b)) (99, Some Scenario.msg_b)
           eq_refl eq_refl).
Defined.

Lemma drain_leaves_later_entries_witness :
  remaining Scenario.roomy 98 2 Scenario.crowded = [(100, Some Scenario.msg_c)].
Proof.
  apply (drain_leaves_later_entries Scenario.roomy 98 2 Scenario.crowded).
  - lia.
  - unfold ordered. repeat constructor; simpl; lia.
  - repeat constructor; simpl; lia.
  - right. reflexivity.
Defined.

(** Entries due in the period, in order, with room in the buffer. *)
Lemma drain_loop_exact reserve nNow nFrames ahead :
  forall walked nNextTime out,
  (forall o t, reserve o t = true) ->
  0 <= nNow -> nNow + nFrames < 2 ^ 32 -> 0 <= nNextTime ->
  ordered ahead ->
  Forall (fun k => nNow + nNextTime <= k < nNow + nFrames) (keys ahead) ->
  drain_loop reserve nNow nFrames walked ahead nNextTime out
  = ([], out ++ map (fun entry => mkEmission (fst entry - nNow) (snd entry))
                  ahead, Exhausted).
Proof.
  induction ahead as [|[first second] ahead' IH];
    intros walked nNextTime out Hres Hnow Hwrap Hn Ho Hk.
  - simpl. now rewrite app_nil_r.
  - simpl drain_loop. inversion Hk as [|? ? Hfirst Hk']; subst.
    simpl in Hfirst.
    rewrite (u32_small (nNow + nFrames)) by lia.
    destruct (Z.leb_spec (nNow + nFrames) first); [lia|].
    destruct (Z.ltb_spec first nNow); [lia|].
    rewrite (u32_small (first - nNow)) by lia.
    destruct (Z.ltb_spec (first - nNow) nNextTime); [lia|].
    destruct (Z.leb_spec nFrames (first - nNow)); [lia|].
    rewrite Hres. simpl negb. cbv iota.
    rewrite (u32_small (first - nNow + 1)) by lia.
    rewrite IH; try assumption; try lia.
    + simpl. now rewrite <- app_assoc.
    + unfold ordered in *. simpl in Ho. now inversion Ho.
    + unfold ordered in Ho. simpl in Ho. inversion Ho as [|? ? _ Hlt]; subst.
      apply List.Forall_forall. intros k Hin.
      rewrite List.Forall_forall in Hlt, Hk'.
      pose proof (Hlt k Hin). pose proof (Hk' k Hin). simpl in *. lia.
Qed.

(** X16: when every entry of the schedule is due within the period and the
    output buffer has room, the drain emits each entry at exactly its frame
    (offset = frame - nNow) and leaves the schedule empty. *)
Theorem drain_on_time reserve nNow nFrames s :
  (forall o t, reserve o t = true) ->
  0 <= nNow -> nNow + nFrames < 2 ^ 32 ->
  ordered s ->
  Forall (fun k => nNow <= k < nNow + nFrames) (keys s) ->
  drain reserve nNow nFrames s
  = ([], map (fun entry => mkEmission (fst entry - nNow) (snd entry)) s,
     Exhausted).
Proof.
  intros Hres Hnow Hwrap Ho Hk. unfold drain.
  rewrite drain_loop_exact; try assumption; try lia; [reflexivity|].
  eapply Forall_impl; [exact Hk|]. simpl. intros; lia.
Qed.

Lemma drain_on_time_witness :
  drain Scenario.roomy 98 256 Scenario.crowded
  = ([], [mkEmission 0 (Some Scenario.msg_a); mkEmission 1 (Some Scenario.msg_b);
          mkEmission 2 (Some Scenario.msg_c)], Exhausted).
Proof.
  apply (drain_on_time Scenario.roomy 98 256 Scenario.crowded).
  - reflexivity.
  - lia.
  - lia.
  - unfold ordered. repeat constructor; simpl; lia.
  - repeat constructor; simpl; lia.
Defined.

(** *** Song position pointer *)

Lemma song_position_bytes pos :
  0 <= pos ->
  Z.land pos 127 + Z.shiftl (Z.land (Z.shiftr pos 7) 127) 7 = pos mod 2 ^ 14.
Proof.
  intros Hpos.
  change 127 with (Z.ones 7). rewrite !Z.land_ones by lia.
  rewrite Z.shiftr_div_pow2, Z.shiftl_mul_pow2 by lia.
  change (2 ^ 14) with (2 ^ 7 * 2 ^ 7).
  rewrite Z.rem_mul_r by lia. lia.
Qed.

(** X19: the song position pointer survives the trip.  [sendMidiSongPos(pos)]
    on an empty schedule queues one message, which the next drain emits at
    offset 0; its status is 0xF2, its two data bytes are within 0..127, and
    the formula of the input handler reads from them 6 clocks for each of the
    [pos mod 2^14] sixteenth notes. *)
Theorem song_position_round_trip reserve nNow nFrames pos :
  0 <= pos < 2 ^ 16 ->
  0 <= nNow -> 0 < nFrames -> nNow + nFrames < 2 ^ 32 ->
  reserve [] 0 = true ->
  exists s msg,
    sendMidiSongPos pos [] = Some s
    /\ drain reserve nNow nFrames s = ([], [mkEmission 0 (Some msg)], Exhausted)
    /\ command msg = MIDI_POSITION
    /\ 0 <= value1 msg <= 127 /\ 0 <= value2 msg <= 127
    /\ song_position_clocks (value1 msg) (value2 msg) = 6 * (pos mod 2 ^ 14).
Proof.
  intros Hpos Hnow Hf Hwrap Hres.
  set (msg := mkMsg MIDI_POSITION (Z.land pos 127)
                (Z.land (Z.shiftr pos 7) 127)).
  exists [(0, Some msg)], msg.
  assert (0 <= Z.land pos 127 <= 127) as H1.
  { assert (Z.land pos 127 = pos mod 2 ^ 7) as ->
      by (change 127 with (Z.ones 7); apply Z.land_ones; lia).
    pose proof (Z.mod_pos_bound pos (2 ^ 7) ltac:(lia)). lia. }
  assert (0 <= Z.land (Z.shiftr pos 7) 127 <= 127) as H2.
  { assert (Z.land (Z.shiftr pos 7) 127 = Z.shiftr pos 7 mod 2 ^ 7) as ->
      by (change 127 with (Z.ones 7); apply Z.land_ones; lia).
    pose proof (Z.mod_pos_bound (Z.shiftr pos 7) (2 ^ 7) ltac:(lia)). lia. }
  split; [reflexivity|]. split.
  - unfold drain. cbn [drain_loop].
    rewrite (u32_small (nNow + nFrames)) by lia.
    destruct (Z.leb_spec (nNow + nFrames) 0); [lia|].
    assert ((if 0 <? nNow then 0 else u32 (0 - nNow)) = 0) as ->.
    { destruct (Z.ltb_spec 0 nNow); [reflexivity|].
      replace nNow with 0 by lia. reflexivity. }
    change (0 <? 0) with false. cbv iota.
    destruct (Z.leb_spec nFrames 0); [lia|]. rewrite Hres. reflexivity.
  - split; [reflexivity|]. split; [exact H1|]. split; [exact H2|].
    unfold song_position_clocks. simpl value1. simpl value2.
    rewrite song_position_bytes by lia.
    pose proof (Z.mod_pos_bound pos (2 ^ 14) ltac:(lia)).
    rewrite u32_small by lia. lia.
Qed.

Lemma song_position_round_trip_witness :
  exists s msg,
    sendMidiSongPos 1000 [] = Some s
    /\ drain Scenario.roomy 512 256 s
       = ([], [mkEmission 0 (Some msg)], Exhausted)
    /\ song_position_clocks (value1 msg) (value2 msg) = 6000.
Proof.
  destruct (song_position_round_trip Scenario.roomy 512 256 1000)
    as (s & msg & H1 & H2 & _ & _ & _ & H3); try lia; try reflexivity.
  exists s, msg. repeat split; assumption.
Defined.

End ScheduleMore.

(** ** The transport: clocks across periods and timebase events *)

Module TransportMore.

Import Transport TransportFacts.

Section RollFacts.

Variable rnd : Q -> Q.
Variable pm_clock :
  Z -> Schedule.schedule -> bool -> Q -> Schedule.schedule * bool.

(** What a pulse does to the counters of the loop. *)
Lemma clock_pulse_counters st nFramesInPeriod frame nRemainingFrames :
  let r := clock_pulse rnd pm_clock st nFramesInPeriod frame nRemainingFrames in
  let st' := fst (fst r) in
  g_dFramesPerClock st' = g_dFramesPerClock st
  /\ g_fBeatsPerBar st' = g_fBeatsPerBar st
  /\ g_nFramesToNextClock st' = float_to_u32 (g_dFramesPerClock st)
  /\ snd (fst r) = u32 (nRemainingFrames - g_nFramesToNextClock st)
  /\ (0 <= g_nClock st <= 23 ->
      g_nClock st' = (g_nClock st + 1) mod 24
      /\ (g_nClock st < 23 -> g_nBeat st' = g_nBeat st)
      /\ (g_nClock st = 23 -> g_nBeat st < 2 ^ 32 - 1 -> 0 <= g_nBeat st ->
          g_nBeat st' = next_beat st)).
Proof.
  cbv zeta. unfold clock_pulse, next_beat.
  destruct (pm_clock _ _ _ _) as [mSchedule bPlaying]. cbn [fst snd].
  cbn [g_dFramesPerClock g_fBeatsPerBar g_nFramesToNextClock g_nClock g_nBeat].
  do 4 (split; [reflexivity|]). intros Hc.
  rewrite (u8_small (g_nClock st + 1)) by lia.
  destruct (Z.gtb_spec (g_nClock st + 1) 23) as [Hw|Hw].
  - assert (g_nClock st = 23) as E by lia. rewrite E. cbn [andb].
    split; [reflexivity|]. split; [intros; lia|].
    intros _ Hb H0. rewrite u32_small by lia. reflexivity.
  - rewrite Z.mod_small by lia. cbn [andb].
    split; [reflexivity|]. split; [reflexivity|]. intros; lia.
Qed.

(** The loop over the clocks of a period ends when a clock takes at least
    one frame, after [n] pulses that are [F] frames apart. *)
Lemma clock_loop_ends : forall fuel st nFramesInPeriod frame nRemainingFrames bSync,
  let F := float_to_u32 (g_dFramesPerClock st) in
  1 <= F -> 0 <= g_nClock st <= 23 ->
  0 <= g_nFramesToNextClock st -> 0 <= nRemainingFrames < 2 ^ 32 ->
  nRemainingFrames + (if 1 <=? g_nFramesToNextClock st then 0 else 1)
  < Z.of_nat fuel ->
  exists n st' nRemainingFrames' bSync',
    clock_loop rnd pm_clock fuel st nFramesInPeriod frame nRemainingFrames bSync
    = Some (st', nRemainingFrames', bSync')
    /\ 0 <= n
    /\ g_nFramesToNextClock st' - nRemainingFrames'
       = g_nFramesToNextClock st - nRemainingFrames + n * F
    /\ 0 <= nRemainingFrames' <= g_nFramesToNextClock st'
    /\ (n = 0 <-> nRemainingFrames <= g_nFramesToNextClock st)
    /\ (0 < n -> 0 < nRemainingFrames' /\ g_nFramesToNextClock st' = F)
    /\ g_nClock st' = (g_nClock st + n) mod 24
    /\ g_dFramesPerClock st' = g_dFramesPerClock st.
Proof.
  induction fuel as [|fuel IH];
    intros st nFramesInPeriod frame nRemainingFrames bSync F HF Hc Ht Hr Hfuel.
  - destruct (1 <=? g_nFramesToNextClock st); lia.
  - simpl clock_loop.
    destruct (Z.ltb_spec (g_nFramesToNextClock st) nRemainingFrames) as [Hlt|Hge].
    + destruct (clock_pulse_counters st nFramesInPeriod frame nRemainingFrames)
        as (Hfpc & _ & Hnext & Hrem & Hclock).
      cbv zeta in *. destruct (Hclock Hc) as (Hclock' & _).
      destruct (clock_pulse rnd pm_clock st nFramesInPeriod frame
                  nRemainingFrames) as [[st1 rem1] sync1].
      cbn [fst snd] in *.
      rewrite u32_small in Hrem by lia.
      destruct (IH st1 nFramesInPeriod frame rem1 sync1)
        as (n & st' & rem' & sync' & Hloop & Hn & Hcons & Hbound & Hzero
            & Hpos & Hcl & Hf).
      * rewrite Hfpc. exact HF.
      * rewrite Hclock'. pose proof (Z.mod_pos_bound (g_nClock st + 1) 24).
        lia.
      * rewrite Hnext. fold F. lia.
      * lia.
      * rewrite Hnext. fold F.
        destruct (Z.leb_spec 1 F); [|lia].
        destruct (Z.leb_spec 1 (g_nFramesToNextClock st)); lia.
      * exists (n + 1), st', rem', sync'.
        rewrite Hfpc in *. fold F in Hcons, Hpos, Hnext.
        split; [exact Hloop|]. split; [lia|].
        split; [rewrite Hcons, Hnext, Hrem; lia|].
        split; [exact Hbound|]. split; [lia|].
        split.
        -- intros _. destruct (Z.eq_dec n 0) as [->|Hn0].
           ++ assert (rem1 <= g_nFramesToNextClock st1) as Hz by now apply Hzero.
              assert (g_nFramesToNextClock st' - rem'
                      = g_nFramesToNextClock st1 - rem1) by lia.
              clear Hzero. 
              (* no pulse after the first: the state is st1 *)
              destruct fuel as [|fuel']; [discriminate|].
              simpl in Hloop.
              destruct (Z.ltb_spec (g_nFramesToNextClock st1) rem1); [lia|].
              injection Hloop as <- <- <-. split; [lia|exact Hnext].
           ++ apply Hpos. lia.
        -- split; [|exact Hf].
           rewrite Hcl, Hclock'. rewrite Z.add_mod_idemp_l by lia.
           f_equal. lia.
    + exists 0, st, nRemainingFrames, bSync.
      split; [reflexivity|]. split; [lia|]. split; [lia|]. split; [lia|].
      split; [tauto|]. split; [lia|].
      split; [|reflexivity]. rewrite Z.add_0_r, Z.mod_small; lia.
Qed.

(** X22: clocks are [F] frames apart across periods, [F] being the whole
    frames of [g_dFramesPerClock].  When [F >= 1] the rolling branch ends,
    after some [n] clocks, with
    [g_nFramesToNextClock' + nFramesInPeriod = g_nFramesToNextClock + n * F].
    No clock falls in the period exactly when the next one is not before its
    end; after a clock, the next one is less than [F] frames into the next
    period.  [g_nClock] has advanced by [n] modulo 24. *)
Theorem roll_spaces_clocks fuel st nFramesInPeriod frame :
  let F := float_to_u32 (g_dFramesPerClock st) in
  1 <= F -> 0 <= g_nClock st <= 23 ->
  0 <= g_nFramesToNextClock st < 2 ^ 32 -> 0 <= nFramesInPeriod < 2 ^ 32 ->
  nFramesInPeriod + 1 < Z.of_nat fuel ->
  exists n st' bStop,
    roll rnd pm_clock fuel st nFramesInPeriod frame = Some (st', bStop)
    /\ 0 <= n
    /\ g_nFramesToNextClock st' + nFramesInPeriod
       = g_nFramesToNextClock st + n * F
    /\ 0 <= g_nFramesToNextClock st'
    /\ (n = 0 <-> nFramesInPeriod <= g_nFramesToNextClock st)
    /\ (0 < n -> g_nFramesToNextClock st' < F)
    /\ g_nClock st' = (g_nClock st + n) mod 24
    /\ g_dFramesPerClock st' = g_dFramesPerClock st.
Proof.
  intros F HF Hc Ht Hr Hfuel.
  destruct (clock_loop_ends fuel st nFramesInPeriod frame nFramesInPeriod false)
    as (n & st1 & rem1 & sync1 & Hloop & Hn & Hcons & Hbound & Hzero & Hpos
        & Hcl & Hf); try assumption; try lia.
  { destruct (1 <=? g_nFramesToNextClock st); lia. }
  fold F in Hcons, Hpos.
  unfold roll. rewrite Hloop.
  eexists n, _, _. split; [reflexivity|].
  cbn [g_nFramesToNextClock g_nClock g_dFramesPerClock].
  assert (g_nFramesToNextClock st1 < 2 ^ 32 + rem1) as Hsmall.
  { destruct (Z.eq_dec n 0) as [->|Hn0].
    - lia.
    - destruct (Hpos ltac:(lia)) as [_ ->]. unfold F, float_to_u32.
      pose proof (u32_range (Qfloor (g_dFramesPerClock st))). lia. }
  rewrite u32_small by lia.
  split; [exact Hn|]. split; [lia|]. split; [lia|]. split; [exact Hzero|].
  split; [intros Hn0; destruct (Hpos Hn0); lia|].
  split; assumption.
Qed.

(** X23: when a clock takes less than one frame ([g_dFramesPerClock] below 1)
    and a clock is due in the period, the loop over the clocks never ends: no
    number of iterations brings [g_nFramesToNextClock] up to the frames
    left. *)
Theorem roll_never_ends st nFramesInPeriod frame :
  float_to_u32 (g_dFramesPerClock st) = 0 ->
  0 <= g_nFramesToNextClock st < nFramesInPeriod ->
  nFramesInPeriod < 2 ^ 32 ->
  forall fuel, roll rnd pm_clock fuel st nFramesInPeriod frame = None.
Proof.
  intros HF Ht Hr fuel. unfold roll.
  assert (forall fuel st nRemainingFrames bSync,
            float_to_u32 (g_dFramesPerClock st) = 0 ->
            0 <= g_nFramesToNextClock st < nRemainingFrames ->
            nRemainingFrames < 2 ^ 32 ->
            clock_loop rnd pm_clock fuel st nFramesInPeriod frame
              nRemainingFrames bSync = None) as Hloop.
  { clear. induction fuel as [|fuel IH]; intros st rem bSync HF Ht Hr.
    - reflexivity.
    - simpl clock_loop.
      destruct (Z.ltb_spec (g_nFramesToNextClock st) rem) as [_|]; [|lia].
      destruct (clock_pulse_counters st nFramesInPeriod frame rem)
        as (Hfpc & _ & Hnext & Hrem & _).
      cbv zeta in *.
      destruct (clock_pulse rnd pm_clock st nFramesInPeriod frame rem)
        as [[st1 rem1] sync1].
      cbn [fst snd] in *. rewrite u32_small in Hrem by lia.
      apply IH.
      + rewrite Hfpc. exact HF.
      + rewrite Hnext, HF. lia.
      + lia. }
  rewrite Hloop by assumption. reflexivity.
Qed.

(** Pulses in a row: the clock counts modulo 24 and the beat moves when the
    clock wraps. *)
Lemma clock_pulses_count : forall periods st,
  0 <= g_nClock st <= 23 ->
  (length periods <= 24)%nat ->
  (24 <= g_nClock st + Z.of_nat (length periods) ->
   0 <= g_nBeat st < 2 ^ 32 - 1) ->
  let st' := clock_pulses rnd pm_clock periods st in
  g_nClock st' = (g_nClock st + Z.of_nat (length periods)) mod 24
  /\ g_nBeat st'
     = (if 24 <=? g_nClock st + Z.of_nat (length periods)
        then next_beat st else g_nBeat st)
  /\ g_fBeatsPerBar st' = g_fBeatsPerBar st.
Proof.
  induction periods as [|[[nFramesInPeriod frame] nRemainingFrames] rest IH];
    intros st Hc Hlen Hbeat; cbv zeta.
  - cbn [clock_pulses length]. rewrite Z.add_0_r, Z.mod_small by lia.
    destruct (Z.leb_spec 24 (g_nClock st)); [lia|]. repeat split.
  - cbn [clock_pulses].
    destruct (clock_pulse_counters st nFramesInPeriod frame nRemainingFrames)
      as (_ & Hbpb & _ & _ & Hclock).
    cbv zeta in *. destruct (Hclock Hc) as (Hcl & Hsame & Hwrap).
    set (st1 := fst (fst (clock_pulse rnd pm_clock st nFramesInPeriod frame
                            nRemainingFrames))) in *.
    cbn [length] in *. rewrite Nat2Z.inj_succ in *.
    assert (0 <= g_nClock st1 <= 23) as Hc1.
    { rewrite Hcl. pose proof (Z.mod_pos_bound (g_nClock st + 1) 24). lia. }
    destruct (Z.eq_dec (g_nClock st) 23) as [E|E].
    + assert (g_nClock st1 = 0) as E1 by (rewrite Hcl, E; reflexivity).
      destruct (IH st1 Hc1 ltac:(lia) ltac:(lia)) as (H1 & H2 & H3).
      rewrite H1, H2, H3, E1, E.
      destruct (Z.leb_spec 24 (0 + Z.of_nat (length rest))); [lia|].
      destruct (Z.leb_spec 24 (23 + Z.succ (Z.of_nat (length rest)))); [|lia].
      split; [|split; [apply Hwrap; lia|exact Hbpb]].
      replace (23 + Z.succ (Z.of_nat (length rest)))
        with (0 + Z.of_nat (length rest) + 1 * 24) by lia.
      now rewrite Z.mod_add.
    + assert (g_nClock st1 = g_nClock st + 1) as E1
          by (rewrite Hcl; apply Z.mod_small; lia).
      assert (g_nBeat st1 = g_nBeat st) as Eb by (apply Hsame; lia).
      destruct (IH st1 Hc1 ltac:(lia) ltac:(rewrite E1, Eb; intros; apply Hbeat; lia))
        as (H1 & H2 & H3).
      rewrite H1, H2, H3, E1, Eb.
      replace (g_nClock st + 1 + Z.of_nat (length rest))
        with (g_nClock st + Z.succ (Z.of_nat (length rest))) by lia.
      split; [reflexivity|]. split; [|exact Hbpb].
      unfold next_beat. rewrite Hbpb, Eb. reflexivity.
Qed.

(** X21: 24 clocks make a beat.  Any 24 iterations of the clock loop in a
    row, whatever the periods they fall in, bring [g_nClock] back to its value
    and advance the beat exactly once: to [g_nBeat + 1], or back to 1 past the
    end of the bar.  The new beat is at least 1, and within the beats of a bar
    when the bar has a beat. *)
Theorem beat_every_24_pulses periods st :
  length periods = 24%nat ->
  0 <= g_nClock st <= 23 ->
  0 <= g_nBeat st < 2 ^ 32 - 1 ->
  let st' := clock_pulses rnd pm_clock periods st in
  g_nClock st' = g_nClock st
  /\ g_nBeat st' = next_beat st
  /\ 1 <= g_nBeat st'
  /\ (1 <= g_fBeatsPerBar st -> inject_Z (g_nBeat st') <= g_fBeatsPerBar st)%Q.
Proof.
  intros Hlen Hc Hb. cbv zeta.
  destruct (clock_pulses_count periods st Hc ltac:(lia) ltac:(lia))
    as (H1 & H2 & _).
  cbv zeta in *. rewrite Hlen in *.
  rewrite H1, H2.
  destruct (Z.leb_spec 24 (g_nClock st + Z.of_nat 24)); [|lia].
  split.
  { replace (g_nClock st + Z.of_nat 24) with (g_nClock st + 1 * 24) by lia.
    rewrite Z.mod_add by lia. apply Z.mod_small. lia. }
  split; [reflexivity|].
  unfold next_beat.
  destruct (Qlt_bool (g_fBeatsPerBar st) (inject_Z (g_nBeat st + 1))) eqn:E.
  - split; [lia|]. intros Hbpb. exact Hbpb.
  - split; [lia|]. intros _.
    apply Qnot_lt_le. intros Hlt. apply Qlt_bool_iff in Hlt. congruence.
Qed.

End RollFacts.

Lemma roll_spaces_clocks_witness :
  exists n st' bStop,
    roll Scenario.exact Scenario.idle_clock 258 Scenario.last_clock_of_bar 256 0
    = Some (st', bStop)
    /\ g_nFramesToNextClock st' + 256 = 0 + n * 1000
    /\ g_nClock st' = (23 + n) mod 24.
Proof.
  destruct (roll_spaces_clocks Scenario.exact Scenario.idle_clock 258
              Scenario.last_clock_of_bar 256 0)
    as (n & st' & bStop & H1 & _ & H2 & _ & _ & _ & H3 & _).
  - vm_compute. discriminate.
  - simpl. lia.
  - simpl. lia.
  - lia.
  - lia.
  - exists n, st', bStop. split; [exact H1|]. split; [exact H2|exact H3].
Defined.

Lemma roll_never_ends_witness :
  roll Scenario.exact Scenario.idle_clock 1000 Scenario.racing_clock 256 0
  = None.
Proof.
  refine (roll_never_ends Scenario.exact Scenario.idle_clock
            Scenario.racing_clock 256 0 _ _ _ 1000%nat).
  - reflexivity.
  - simpl. lia.
  - lia.
Defined.

Lemma beat_every_24_pulses_witness :
  let st' :=
    clock_pulses Scenario.exact Scenario.idle_clock
      (repeat (256, 0, 256) 24) Scenario.last_clock_of_bar in
  g_nClock st' = 23 /\ g_nBeat st' = 1.
Proof.
  destruct (beat_every_24_pulses Scenario.exact Scenario.idle_clock
              (repeat (256, 0, 256) 24) Scenario.last_clock_of_bar)
    as (H1 & H2 & _).
  - reflexivity.
  - simpl. lia.
  - simpl. lia.
  - split; [exact H1|exact H2].
Defined.

Section TimebaseMore.
Variable rnd : Q -> Q.

Lemma timebase_event_fields st ev next :
  let st' := timebase_event rnd st ev next in
  g_nBar st' = g_nBar st /\ g_nSampleRate st' = g_nSampleRate st
  /\ g_nClock st' = g_nClock st /\ g_nBeat st' = g_nBeat st
  /\ g_pNextTimebaseEvent st' = next
  /\ g_dTempo st' = tempo_after [ev] (g_dTempo st)
  /\ (tempo_matched rnd st \/ type ev = TIMEBASE_TYPE_TEMPO ->
      tempo_matched rnd st').
Proof.
  cbv zeta. unfold timebase_event, tempo_after, tempo_matched. cbn [fold_left].
  destruct (type ev); cbn; repeat split; intros [H|H]; congruence.
Qed.

(** X20: the loop over the timebase events consumes exactly the due ones.  The
    events consumed have [bar <= g_nBar] and the event left under the cursor,
    if any, has a later bar.  The tempo is the value of the last tempo event
    consumed (the old tempo without one), and the frames per clock are those
    of the tempo in force whenever they were before the loop or a tempo event
    was consumed.  Bar, beat and clock are as they were. *)
Theorem timebase_events_due st :
  let st' := process_timebase_events rnd st in
  exists due,
    g_pNextTimebaseEvent st = due ++ g_pNextTimebaseEvent st'
    /\ Forall (fun ev => bar ev <= g_nBar st) due
    /\ match g_pNextTimebaseEvent st' with
       | [] => True
       | ev :: _ => g_nBar st < bar ev
       end
    /\ g_dTempo st' = tempo_after due (g_dTempo st)
    /\ (tempo_matched rnd st
        \/ Exists (fun ev => type ev = TIMEBASE_TYPE_TEMPO) due ->
        tempo_matched rnd st')
    /\ g_nBar st' = g_nBar st /\ g_nBeat st' = g_nBeat st
    /\ g_nClock st' = g_nClock st.
Proof.
  cbv zeta. unfold process_timebase_events.
  assert (forall cursor st, g_pNextTimebaseEvent st = cursor ->
    exists due,
      cursor = due ++ g_pNextTimebaseEvent (timebase_events rnd st cursor)
      /\ Forall (fun ev => bar ev <= g_nBar st) due
      /\ match g_pNextTimebaseEvent (timebase_events rnd st cursor) with
         | [] => True
         | ev :: _ => g_nBar st < bar ev
         end
      /\ g_dTempo (timebase_events rnd st cursor) = tempo_after due (g_dTempo st)
      /\ (tempo_matched rnd st
          \/ Exists (fun ev => type ev = TIMEBASE_TYPE_TEMPO) due ->
          tempo_matched rnd (timebase_events rnd st cursor))
      /\ g_nBar (timebase_events rnd st cursor) = g_nBar st
      /\ g_nBeat (timebase_events rnd st cursor) = g_nBeat st
      /\ g_nClock (timebase_events rnd st cursor) = g_nClock st) as H.
  { clear st. induction cursor as [|ev next IH]; intros st Hcur.
    - exists []. cbn [timebase_events]. rewrite Hcur.
      split; [reflexivity|]. split; [constructor|]. split; [exact I|].
      split; [reflexivity|].
      split; [|repeat split].
      intros [H|H]; [exact H|]. inversion H.
    - cbn [timebase_events].
      destruct (Z.leb_spec (bar ev) (g_nBar st)) as [Hle|Hgt].
      + destruct (timebase_event_fields st ev next)
          as (Hbar & _ & Hclock & Hbeat & Hnext & Htempo & Hmatch).
        cbv zeta in *.
        destruct (IH (timebase_event rnd st ev next) Hnext)
          as (due & Hdue & Hall & Hhead & Ht & Hm & Hb & Hbe & Hc).
        exists (ev :: due). rewrite Hbar in *.
        split; [cbn [app]; f_equal; exact Hdue|].
        split; [constructor; assumption|].
        split; [exact Hhead|].
        split; [rewrite Ht, Htempo; reflexivity|].
        split.
        { intros [H|H].
          - apply Hm. left. apply Hmatch. left. exact H.
          - apply Hm. inversion H; subst.
            + left. apply Hmatch. right. assumption.
            + right. assumption. }
        split; [exact Hb|]. split; congruence.
      + exists []. rewrite Hcur. cbn [app].
        split; [reflexivity|]. split; [constructor|].
        split; [exact Hgt|]. split; [reflexivity|].
        split; [|repeat split].
        intros [H|H]; [exact H|]. inversion H. }
  apply H. reflexivity.
Qed.

End TimebaseMore.

End TransportMore.
